(** * An OpenTelemetry plugin for gorm and a registry of named connections

  Shallow embedding of [entry.go] (package [gorm] of go-grom/gorm) and
  the properties of its specification.

  The definitions come first, one module per part of the source:
  - [Vocabulary] operation names and the twelve stage identifiers;
  - [MyError]    the error accumulator [myError] ([add], [toError], [Error]);
  - [Time], [World] what the hooks use of the clock, the tracing backend,
                 the per-statement instance store and the logger;
  - [Plugin]     [options], [New], the hooks [injectBefore] and
                 [extractAfter], and [Initialize];
  - [Registry]   [Get], as a small-step machine of goroutines over the
                 shared map [dbs], the lock [rwl] and the single-flight
                 group [sfg];
  - [Props], [Scenarios] the predicates of the properties and concrete
                 inputs;
  - [Keys], [Calls], [Reach], [Cases] the attribute keys, the exported
                 options as data, the reachable states of the registry
                 with their invariant, and further inputs.
  The properties follow, grouped the same way.

  Go values are modelled as follows.  A [string] is a [string]; an [error]
  is [option string] ([None] is [nil], [Some m] an error whose [Error()]
  is [m]); a pointer that may be [nil] is an [option]; a map is a [gmap];
  a slice that is only appended to is a [list]. *)

From stdpp Require Import gmap strings list.
From Stdlib Require Import ZArith Lia.

(** Go's [error] interface, reduced to what the code reads of it: whether
  it is [nil], and the text of [Error()]. *)
Abbreviation error := (option string).

(** * Operation vocabulary (lines 146-174, 228-232) *)

Module Vocabulary.

Definition operationName := string.
Definition operationStage := string.

Definition _createOp : operationName := "create".
Definition _updateOp : operationName := "update".
Definition _queryOp : operationName := "query".
Definition _deleteOp : operationName := "delete".
Definition _rowOp : operationName := "row".
Definition _rawOp : operationName := "raw".

(** [func (op operationStage) Name() string] *)
Definition Name (op : operationStage) : string := op.

Definition _stageBeforeCreate : operationStage := "otel:before_create".
Definition _stageAfterCreate : operationStage := "otel:after_create".
Definition _stageBeforeUpdate : operationStage := "otel:before_update".
Definition _stageAfterUpdate : operationStage := "otel:after_update".
Definition _stageBeforeQuery : operationStage := "otel:before_query".
Definition _stageAfterQuery : operationStage := "otel:after_query".
Definition _stageBeforeDelete : operationStage := "otel:before_delete".
Definition _stageAfterDelete : operationStage := "otel:after_delete".
Definition _stageBeforeRow : operationStage := "otel:before_row".
Definition _stageAfterRow : operationStage := "otel:after_row".
Definition _stageBeforeRaw : operationStage := "otel:before_raw".
Definition _stageAfterRaw : operationStage := "otel:after_raw".

End Vocabulary.

(** * The error accumulator (lines 45-67) *)

Module MyError.
Import Vocabulary.

(** [type myError struct { errs []string }] *)
Record myError := { errs : list string }.

(** [func (e *myError) add(stage operationStage, err error)]: the
    receiver is mutated in place, here the new value is returned. *)
Definition add (e : myError) (stage : operationStage) (err : error) : myError :=
  match err with
  | None => e
  | Some msg => {| errs := errs e ++ ["stage=" +:+ Name stage +:+ ":" +:+ msg] |}
  end.

(** [func (e *myError) toError() error]: [nil] for an empty accumulator,
    otherwise the accumulator itself, as an [error]. *)
Definition toError (e : myError) : option myError :=
  match errs e with
  | [] => None
  | _ :: _ => Some e
  end.

(** [func (e *myError) Error() string]; [String.concat] puts the
    separator between consecutive entries, as [strings.Join] does. *)
Definition Error (e : myError) : string := String.concat ";" (errs e).

(** A sequence of [add] calls on one accumulator, first call first. *)
Fixpoint add_all (e : myError) (calls : list (operationStage * error)) : myError :=
  match calls with
  | [] => e
  | (stage, err) :: rest => add_all (add e stage err) rest
  end.

(** The entry that the specification describes: [stage + ":" + message],
    without the [stage=] prefix of the code. *)
Definition spec_entry (stage : operationStage) (msg : string) : string :=
  stage +:+ ":" +:+ msg.

(** The entry that [add] writes. *)
Definition entry (stage : operationStage) (msg : string) : string :=
  "stage=" +:+ Name stage +:+ ":" +:+ msg.

(** The entries of the calls that carry an error, in call order. *)
Fixpoint entries (calls : list (operationStage * error)) : list string :=
  match calls with
  | [] => []
  | (stage, Some msg) :: rest => entry stage msg :: entries rest
  | (_, None) :: rest => entries rest
  end.

End MyError.

(** * Time (package [time] of the Go library, as far as the hooks use it) *)

Module Time.

(** A [time.Time] is the number of nanoseconds since the zero time,
    January 1 of year 1, 00:00 UTC; a [time.Duration] is a signed 64-bit
    count of nanoseconds. *)
Definition Time := Z.
Definition Duration := Z.

(** [time.Time{}], the value of a declared and never assigned [time.Time]. *)
Definition zero : Time := 0%Z.

Definition maxDuration : Duration := (2 ^ 63 - 1)%Z.
Definition minDuration : Duration := (- 2 ^ 63)%Z.

(** [t.Sub(u)]: the duration [t - u], and the maximum (minimum) duration
    when [t - u] does not fit a [Duration]. *)
Definition Sub (t u : Time) : Duration :=
  let d := (t - u)%Z in
  if (maxDuration <? d)%Z then maxDuration
  else if (d <? minDuration)%Z then minDuration
  else d.

(** [time.Since(t)] is [time.Now().Sub(t)]; [now] is the clock reading. *)
Definition Since (now t : Time) : Duration := Sub now t.

End Time.

(** * The tracing backend, the host's per-call store and the logger

  These are the external collaborators of the hooks.  They are modelled
  as recording sinks: a world keeps every span that was started with what
  was done to it, the instance store of every statement, the clock and
  the lines that were logged. *)

Module World.

(** [attribute.KeyValue] *)
Definition attribute := (string * string)%type.

(** The constants of package [util], which the hooks use for the span
    attributes and which the repository does not show. *)
Class Util := {
  DBSystemValue : attribute;
  DBNameKey : string;
  DBStatementKey : string
}.

(** [attribute.Key.String]: the key-value pair of a key and a string. *)
Definition Key_String (k v : string) : attribute := (k, v).

(** A [trace.TracerProvider] is known by its identity. *)
Definition TracerProvider := nat.

(** What a span has been through: the provider and the instrumentation
    name of the tracer that started it, its name, the attributes set on
    it in order, the errors recorded, its status and whether [End] was
    called. *)
Record span := {
  sp_provider : TracerProvider;
  sp_tracer : string;
  sp_name : string;
  sp_attrs : list attribute;
  sp_errors : list string;
  sp_status : option (string * string);
  sp_ended : bool
}.

(** The values the plugin puts into the instance store ([interface{}]):
    a [time.Time], a [trace.Span] (the index of the span in the world), or
    anything else some other party stored. *)
Inductive value :=
| VTime (t : Time.Time)
| VSpan (s : nat)
| VOther (x : string).

(** One line of [Debugf("[gorm] name:%s cost: %v sql: %s", ...)] on the
    logger of a context. *)
Record logline := {
  lg_ctx : nat;
  lg_name : string;
  lg_cost : Time.Duration;
  lg_sql : string
}.

Record world := {
  w_provider : TracerProvider;            (* otel.GetTracerProvider() *)
  w_spans : list span;                    (* every span started so far *)
  w_settings : gmap (nat * string) value; (* Statement.Settings, per statement *)
  w_now : Time.Time;                      (* what time.Now() reads *)
  w_log : list logline
}.

(** A bound parameter of a statement. *)
Inductive param :=
| PInt (n : Z)
| PStr (s : string).

(** [gorm.Statement], the fields the hooks read, and its address. *)
Record Statement := {
  st_ptr : nat; Context : option nat;
  SQL : string;
  Vars : list param
}.

(** [gorm.Dialector]: [Name] and [Explain]. *)
Record Dialector := {
  d_Name : string;
  Explain : string -> list param -> string
}.

(** [gorm.DB] as the hooks see it; a [*gorm.DB] is an [option DB]. *)
Record DB := {
  db_Dialector : Dialector;
  db_Statement : option Statement
}.

(** [db.Name()] *)
Definition DB_Name (db : DB) : string := d_Name (db_Dialector db).

(** [tr.Start(ctx, name)] on a tracer that provider [p] handed out under
    the instrumentation name [tracer]: a new span, known by its index. *)
Definition Start (p : TracerProvider) (tracer name : string) (w : world) : nat * world :=
  (length (w_spans w),
   {| w_provider := w_provider w;
      w_spans := w_spans w ++
        [{| sp_provider := p; sp_tracer := tracer; sp_name := name;
            sp_attrs := []; sp_errors := []; sp_status := None;
            sp_ended := false |}];
      w_settings := w_settings w;
      w_now := w_now w;
      w_log := w_log w |}).

(** An update of span [s] in place; nothing happens when there is none. *)
Definition with_span (s : nat) (f : span -> span) (w : world) : world :=
  {| w_provider := w_provider w;
     w_spans := alter f s (w_spans w);
     w_settings := w_settings w;
     w_now := w_now w;
     w_log := w_log w |}.

(** [span.SetAttributes(kv)] *)
Definition SetAttributes (s : nat) (kv : attribute) : world -> world :=
  with_span s (fun sp =>
    {| sp_provider := sp_provider sp; sp_tracer := sp_tracer sp;
       sp_name := sp_name sp; sp_attrs := sp_attrs sp ++ [kv];
       sp_errors := sp_errors sp; sp_status := sp_status sp;
       sp_ended := sp_ended sp |}).

(** [span.RecordError(err)] *)
Definition RecordError (s : nat) (msg : string) : world -> world :=
  with_span s (fun sp =>
    {| sp_provider := sp_provider sp; sp_tracer := sp_tracer sp;
       sp_name := sp_name sp; sp_attrs := sp_attrs sp;
       sp_errors := sp_errors sp ++ [msg]; sp_status := sp_status sp;
       sp_ended := sp_ended sp |}).

(** [span.SetStatus(code, description)] *)
Definition SetStatus (s : nat) (code description : string) : world -> world :=
  with_span s (fun sp =>
    {| sp_provider := sp_provider sp; sp_tracer := sp_tracer sp;
       sp_name := sp_name sp; sp_attrs := sp_attrs sp;
       sp_errors := sp_errors sp; sp_status := Some (code, description);
       sp_ended := sp_ended sp |}).

(** [span.End()] *)
Definition End (s : nat) : world -> world :=
  with_span s (fun sp =>
    {| sp_provider := sp_provider sp; sp_tracer := sp_tracer sp;
       sp_name := sp_name sp; sp_attrs := sp_attrs sp;
       sp_errors := sp_errors sp; sp_status := sp_status sp;
       sp_ended := true |}).

(** [db.InstanceSet(key, v)]: the store is keyed by the address of the
    statement and the key. *)
Definition InstanceSet (st : Statement) (key : string) (v : value) (w : world) : world :=
  {| w_provider := w_provider w;
     w_spans := w_spans w;
     w_settings := <[(st_ptr st, key) := v]> (w_settings w);
     w_now := w_now w;
     w_log := w_log w |}.

(** [db.InstanceGet(key)]: the value, or not found. *)
Definition InstanceGet (st : Statement) (key : string) (w : world) : option value :=
  w_settings w !! (st_ptr st, key).

(** [log.Get(ctx).Debugf(...)] *)
Definition Debugf (l : logline) (w : world) : world :=
  {| w_provider := w_provider w;
     w_spans := w_spans w;
     w_settings := w_settings w;
     w_now := w_now w;
     w_log := w_log w ++ [l] |}.

End World.

(** * The plugin (lines 16-42, 88-143, 176-232, 271-329) *)

Module Plugin.
Import Vocabulary MyError World.

(** [type errorTagHook func(span trace.Span, err error)] *)
Definition errorTagHook := nat -> string -> world -> world.

(** [defaultErrorTagHook] (line 140) *)
Definition defaultErrorTagHook : errorTagHook :=
  fun span err w => SetStatus span "Error" err (RecordError span err w).

(** [type options struct] (line 176); [tracer] and [errorTagHook] can be
    [nil]. *)
Record options := {
  logResult : bool;
  tracer : option TracerProvider;
  logSqlParameters : bool;
  opt_errorTagHook : option errorTagHook;
  createOpName : operationName;
  updateOpName : operationName;
  queryOpName : operationName;
  deleteOpName : operationName;
  rowOpName : operationName;
  rawOpName : operationName
}.

(** [defaultOption()] (line 190); it reads the process-wide tracer
    provider of the moment. *)
Definition defaultOption (w : world) : options :=
  {| logResult := false;
     tracer := Some (w_provider w);
     logSqlParameters := true;
     opt_errorTagHook := None;
     createOpName := _createOp;
     updateOpName := _updateOp;
     queryOpName := _queryOp;
     deleteOpName := _deleteOp;
     rowOpName := _rowOp;
     rawOpName := _rawOp |}.

(** [type ApplyOption func(o *options)]: the options after the call. *)
Definition ApplyOption := options -> options.

Definition WithLogResult (b : bool) : ApplyOption := fun o =>
  {| logResult := b;
     tracer := tracer o;
     logSqlParameters := logSqlParameters o;
     opt_errorTagHook := opt_errorTagHook o;
     createOpName := createOpName o; updateOpName := updateOpName o;
     queryOpName := queryOpName o; deleteOpName := deleteOpName o;
     rowOpName := rowOpName o; rawOpName := rawOpName o |}.

Definition WithTracer (t : option TracerProvider) : ApplyOption := fun o =>
  match t with
  | None => o
  | Some p =>
    {| logResult := logResult o;
       tracer := Some p;
       logSqlParameters := logSqlParameters o;
       opt_errorTagHook := opt_errorTagHook o;
       createOpName := createOpName o; updateOpName := updateOpName o;
       queryOpName := queryOpName o; deleteOpName := deleteOpName o;
       rowOpName := rowOpName o; rawOpName := rawOpName o |}
  end.

Definition WithSqlParameters (b : bool) : ApplyOption := fun o =>
  {| logResult := logResult o;
     tracer := tracer o;
     logSqlParameters := b;
     opt_errorTagHook := opt_errorTagHook o;
     createOpName := createOpName o; updateOpName := updateOpName o;
     queryOpName := queryOpName o; deleteOpName := deleteOpName o;
     rowOpName := rowOpName o; rawOpName := rawOpName o |}.

(** [type OpentracingPlugin struct { opt *options }] *)
Record OpentracingPlugin := { opt : options }.

(** [func (op OpentracingPlugin) Name() string] *)
Definition Plugin_Name (op : OpentracingPlugin) : string := "otel".

(** The loop of [New] (line 324): each option is applied to the options
    that the ones before it left. *)
Fixpoint apply_options (dst : options) (opts : list ApplyOption) : options :=
  match opts with
  | [] => dst
  | apply :: rest => apply_options (apply dst) rest
  end.

(** [New(opts ...ApplyOption)] (line 321) *)
Definition New (w : world) (opts : list ApplyOption) : OpentracingPlugin :=
  {| opt := apply_options (defaultOption w) opts |}.

Section Hooks.
Context `{Util}.

(** [injectBefore] (line 88).  [otel.Tracer(n)] is
    [otel.GetTracerProvider().Tracer(n)]. *)
Definition injectBefore (op : OpentracingPlugin) (db : option DB)
    (name : operationName) (w : world) : world :=
  match db with
  | None => w
  | Some d =>
    match db_Statement d with
    | None => w
    | Some stmt =>
      match Context stmt with
      | None => w
      | Some ctx =>
        let '(span, w) := Start (w_provider w) "MySQL-Operation" name w in
        let w := SetAttributes span DBSystemValue w in
        let w := SetAttributes span (Key_String DBNameKey (DB_Name d)) w in
        let now := w_now w in
        let w := InstanceSet stmt "start_time" (VTime now) w in
        InstanceSet stmt "span" (VSpan span) w
      end
    end
  end.

(** [extractAfter] (line 109).  Both type assertions are of the
    two-result form: one that fails leaves the zero value and goes on. *)
Definition extractAfter (op : OpentracingPlugin) (db : option DB)
    (w : world) : world :=
  match db with
  | None => w
  | Some d =>
    match db_Statement d with
    | None => w
    | Some stmt =>
      match Context stmt with
      | None => w
      | Some ctx =>
        let startTime :=
          match InstanceGet stmt "start_time" w with
          | Some (VTime t) => t
          | _ => Time.zero
          end in
        let sql := Explain (db_Dialector d) (SQL stmt) (Vars stmt) in
        let w :=
          match InstanceGet stmt "span" w with
          | Some (VSpan spanner) =>
            let w := SetAttributes spanner (Key_String DBStatementKey sql) w in
            World.End spanner w
          | _ => w
          end in
        Debugf {| lg_ctx := ctx; lg_name := DB_Name d;
                  lg_cost := Time.Since (w_now w) startTime;
                  lg_sql := sql |} w
      end
    end
  end.

(** Lines 16-42. *)
Definition beforeCreate (op : OpentracingPlugin) (db : option DB) :=
  injectBefore op db (createOpName (opt op)).
Definition beforeUpdate (op : OpentracingPlugin) (db : option DB) :=
  injectBefore op db (updateOpName (opt op)).
Definition beforeQuery (op : OpentracingPlugin) (db : option DB) :=
  injectBefore op db (queryOpName (opt op)).
Definition beforeDelete (op : OpentracingPlugin) (db : option DB) :=
  injectBefore op db (deleteOpName (opt op)).
Definition beforeRow (op : OpentracingPlugin) (db : option DB) :=
  injectBefore op db (rowOpName (opt op)).
Definition beforeRaw (op : OpentracingPlugin) (db : option DB) :=
  injectBefore op db (rawOpName (opt op)).
Definition after (op : OpentracingPlugin) (db : option DB) :=
  extractAfter op db.

End Hooks.

(** ** Registration of the hooks (line 279)

    [db.Callback().Create().Before("gorm:create").Register(name, fn)]:
    the host's registry of callbacks is an external collaborator.  A
    registration names the processor, the position relative to a step of
    the host, the name of the hook and the hook. *)

Inductive processor := Create | Update | Query | Delete | Row | Raw.

Inductive position :=
| Before (anchor : string)
| After (anchor : string).

Record registration := {
  reg_processor : processor;
  reg_position : position;
  reg_name : string;
  reg_fn : option DB -> world -> world
}.

(** The host: [Register] changes the callbacks of the handle and returns
    an [error]. *)
Class Callbacks (C : Type) := { Register : registration -> C -> C * error }.

Section Initialize.
Context `{Util} {C : Type} `{Callbacks C}.

(** [func (op OpentracingPlugin) Initialize(db *gorm.DB) (err error)];
    [db] stands for the callbacks of the handle. *)
Definition Initialize (op : OpentracingPlugin) (db : C) : C * option myError :=
  let e := {| errs := [] |} in
  (* create *)
  let '(db, err) := Register {| reg_processor := Create; reg_position := Before "gorm:create";
                                reg_name := Name _stageBeforeCreate; reg_fn := beforeCreate op |} db in
  let e := add e _stageBeforeCreate err in
  let '(db, err) := Register {| reg_processor := Create; reg_position := After "gorm:create";
                                reg_name := Name _stageAfterCreate; reg_fn := after op |} db in
  let e := add e _stageAfterCreate err in
  (* update *)
  let '(db, err) := Register {| reg_processor := Update; reg_position := Before "gorm:update";
                                reg_name := Name _stageBeforeUpdate; reg_fn := beforeUpdate op |} db in
  let e := add e _stageBeforeUpdate err in
  let '(db, err) := Register {| reg_processor := Update; reg_position := After "gorm:update";
                                reg_name := Name _stageAfterUpdate; reg_fn := after op |} db in
  let e := add e _stageAfterUpdate err in
  (* query *)
  let '(db, err) := Register {| reg_processor := Query; reg_position := Before "gorm:query";
                                reg_name := Name _stageBeforeQuery; reg_fn := beforeQuery op |} db in
  let e := add e _stageBeforeQuery err in
  let '(db, err) := Register {| reg_processor := Query; reg_position := After "gorm:query";
                                reg_name := Name _stageAfterQuery; reg_fn := after op |} db in
  let e := add e _stageAfterQuery err in
  (* delete *)
  let '(db, err) := Register {| reg_processor := Delete; reg_position := Before "gorm:delete";
                                reg_name := Name _stageBeforeDelete; reg_fn := beforeDelete op |} db in
  let e := add e _stageBeforeDelete err in
  let '(db, err) := Register {| reg_processor := Delete; reg_position := After "gorm:delete";
                                reg_name := Name _stageAfterDelete; reg_fn := after op |} db in
  let e := add e _stageAfterDelete err in
  (* row *)
  let '(db, err) := Register {| reg_processor := Row; reg_position := Before "gorm:row";
                                reg_name := Name _stageBeforeRow; reg_fn := beforeRow op |} db in
  let e := add e _stageBeforeRow err in
  let '(db, err) := Register {| reg_processor := Row; reg_position := After "gorm:row";
                                reg_name := Name _stageAfterRow; reg_fn := after op |} db in
  let e := add e _stageAfterRow err in
  (* raw *)
  let '(db, err) := Register {| reg_processor := Raw; reg_position := Before "gorm:raw";
                                reg_name := Name _stageBeforeRaw; reg_fn := beforeRaw op |} db in
  let e := add e _stageBeforeRaw err in
  let '(db, err) := Register {| reg_processor := Raw; reg_position := After "gorm:raw";
                                reg_name := Name _stageAfterRaw; reg_fn := after op |} db in
  let e := add e _stageAfterRaw err in
  (db, toError e).

(** The twelve hook installations, in the order of the source. *)
Definition installations (op : OpentracingPlugin) : list registration :=
  [ {| reg_processor := Create; reg_position := Before "gorm:create";
       reg_name := _stageBeforeCreate; reg_fn := beforeCreate op |};
    {| reg_processor := Create; reg_position := After "gorm:create";
       reg_name := _stageAfterCreate; reg_fn := after op |};
    {| reg_processor := Update; reg_position := Before "gorm:update";
       reg_name := _stageBeforeUpdate; reg_fn := beforeUpdate op |};
    {| reg_processor := Update; reg_position := After "gorm:update";
       reg_name := _stageAfterUpdate; reg_fn := after op |};
    {| reg_processor := Query; reg_position := Before "gorm:query";
       reg_name := _stageBeforeQuery; reg_fn := beforeQuery op |};
    {| reg_processor := Query; reg_position := After "gorm:query";
       reg_name := _stageAfterQuery; reg_fn := after op |};
    {| reg_processor := Delete; reg_position := Before "gorm:delete";
       reg_name := _stageBeforeDelete; reg_fn := beforeDelete op |};
    {| reg_processor := Delete; reg_position := After "gorm:delete";
       reg_name := _stageAfterDelete; reg_fn := after op |};
    {| reg_processor := Row; reg_position := Before "gorm:row";
       reg_name := _stageBeforeRow; reg_fn := beforeRow op |};
    {| reg_processor := Row; reg_position := After "gorm:row";
       reg_name := _stageAfterRow; reg_fn := after op |};
    {| reg_processor := Raw; reg_position := Before "gorm:raw";
       reg_name := _stageBeforeRaw; reg_fn := beforeRaw op |};
    {| reg_processor := Raw; reg_position := After "gorm:raw";
       reg_name := _stageAfterRaw; reg_fn := after op |} ].

(** Every registration of a list attempted in turn, whatever the ones
    before it returned: the callbacks at the end and, per registration,
    its name with the error it returned. *)
Fixpoint attempt_all (rs : list registration) (db : C)
    : C * list (operationStage * error) :=
  match rs with
  | [] => (db, [])
  | r :: rest =>
    let '(db, err) := Register r db in
    let '(db, outcomes) := attempt_all rest db in
    (db, (reg_name r, err) :: outcomes)
  end.

End Initialize.

End Plugin.

(** * The registry of connections (lines 235-268)

  [Get] is run by any number of goroutines over the shared variables
  [dbs], [rwl] and [sfg].  The machine below interleaves them: a step is
  what one goroutine does between two points where another goroutine can
  observe or change the shared state.  Each critical section of [rwl] is
  one access to [dbs], so it is one step. *)

Module Registry.

(** A [*gorm.DB] that [gorm.Open] returned: its address. *)
Definition handle := nat.

(** The object behind a handle: the connection string it was opened with
    and the names of the plugins given to [Use]. *)
Record conn := {
  c_dsn : string;
  c_used : list string
}.

(** The single-flight group is package [golang.org/x/sync/singleflight],
    which is not part of the repository.  [Do(key, fn)] is modelled by its
    contract: the caller that finds no call in flight for [key] registers
    one, runs [fn], stores the result in the call, releases the waiters
    and deletes the key; a caller that finds a call in flight waits for
    it and gets its result.  A key whose call has ended is forgotten.

    A call: the result of the function, once it has returned ([val] is an
    [interface{}], [nil] or a [*gorm.DB]), and whether the waiters have
    been released. *)
Record call := {
  val : option handle;
  err : error;
  done : bool
}.

(** Where a goroutine is in [Get].  A goroutine that panics stops; the
    machine lets the others go on, as they do when the caller recovers. *)
Inductive pc :=
| Enter                       (* line 245, before the read of [dbs] *)
| Miss                        (* line 253, before [sfg.Do] *)
| Opening (c : nat)           (* leader of call [c], line 254 *)
| Publish (c : nat) (h : handle)   (* leader, lines 259-264 *)
| Cleanup (c : nat) (v : option handle) (e : error)
                              (* the function returned [(v, e)];
                                 [Do] has yet to release the call *)
| Wait (c : nat)              (* not the leader: blocked on call [c] *)
| Return (v : option handle)  (* line 267, [Do] returned [v] *)
| Returned (db : option handle) (e : error)
| Panicked.

(** A goroutine that runs [Get(ctx, name, dsn)], with its named results
    [db] and [err]. *)
Record goroutine := {
  g_name : string;
  g_dsn : string;
  g_db : option handle;
  g_err : error;
  g_pc : pc
}.

Record state := {
  dbs : gmap string handle;     (* the map [dbs] *)
  sfg : gmap string nat;        (* the calls in flight of [sfg], by key *)
  calls : list call;            (* every call of [sfg], by address *)
  opens : nat;                  (* invocations of [gorm.Open] so far *)
  conns : list conn;            (* the objects [gorm.Open] returned *)
  goroutines : list goroutine
}.

Definition at_pc (g : goroutine) (p : pc) : goroutine :=
  {| g_name := g_name g; g_dsn := g_dsn g; g_db := g_db g;
     g_err := g_err g; g_pc := p |}.

Definition assign (g : goroutine) (db : option handle) (e : error) : goroutine :=
  {| g_name := g_name g; g_dsn := g_dsn g; g_db := db;
     g_err := e; g_pc := g_pc g |}.

Definition set_goroutine (t : nat) (g : goroutine) (s : state) : state :=
  {| dbs := dbs s; sfg := sfg s; calls := calls s; opens := opens s;
     conns := conns s; goroutines := <[t := g]> (goroutines s) |}.

Section Machine.

(** [open_err n dsn]: the error of the invocation of
    [gorm.Open(mysql.Open(dsn), ...)] that [n] invocations precede;
    [None] when it succeeds. *)
Variable open_err : nat -> string -> error.

(** One step of goroutine [t]; [None] when there is no such goroutine,
    when it has finished, and when it is blocked. *)
Definition step (t : nat) (s : state) : option state :=
  match goroutines s !! t with
  | None => None
  | Some g =>
    match g_pc g with
    | Enter =>
      (* rwl.RLock(); v, ok := dbs[name]; ...; rwl.RUnlock() *)
      match dbs s !! g_name g with
      | Some v =>
        Some (set_goroutine t (at_pc (assign g (Some v) (g_err g))
                                  (Returned (Some v) (g_err g))) s)
      | None => Some (set_goroutine t (at_pc g Miss) s)
      end
    | Miss =>
      (* sfg.Do(name, fn): join the call in flight, or start one *)
      match sfg s !! g_name g with
      | Some c => Some (set_goroutine t (at_pc g (Wait c)) s)
      | None =>
        let c := length (calls s) in
        Some (set_goroutine t (at_pc g (Opening c))
                {| dbs := dbs s;
                   sfg := <[g_name g := c]> (sfg s);
                   calls := calls s ++ [{| val := None; err := None; done := false |}];
                   opens := opens s; conns := conns s;
                   goroutines := goroutines s |})
      end
    | Opening c =>
      (* db, err = gorm.Open(mysql.Open(dsn), &gorm.Config{}) *)
      match open_err (opens s) (g_dsn g) with
      | Some e =>
        (* return nil, err; whatever db was assigned is not read again *)
        Some (set_goroutine t (at_pc (assign g None (Some e)) (Cleanup c None (Some e)))
                {| dbs := dbs s; sfg := sfg s; calls := calls s;
                   opens := S (opens s); conns := conns s;
                   goroutines := goroutines s |})
      | None =>
        (* db.Use(New(WithLogResult(false), WithSqlParameters(true))) *)
        let h := length (conns s) in
        Some (set_goroutine t (at_pc (assign g (Some h) None) (Publish c h))
                {| dbs := dbs s; sfg := sfg s; calls := calls s;
                   opens := S (opens s);
                   conns := conns s ++ [{| c_dsn := g_dsn g; c_used := ["otel"] |}];
                   goroutines := goroutines s |})
      end
    | Publish c h =>
      (* rwl.Lock(); dbs[name] = db; rwl.Unlock(); return db, nil *)
      Some (set_goroutine t (at_pc g (Cleanup c (Some h) None))
              {| dbs := <[g_name g := h]> (dbs s);
                 sfg := sfg s; calls := calls s; opens := opens s;
                 conns := conns s; goroutines := goroutines s |})
    | Cleanup c v e =>
      (* the end of Do for the leader: the result is stored in the
         call, the waiters are released, the key is deleted *)
      Some (set_goroutine t (at_pc g (Return v))
              {| dbs := dbs s;
                 sfg := delete (g_name g) (sfg s);
                 calls := <[c := {| val := v; err := e; done := true |}]> (calls s);
                 opens := opens s; conns := conns s;
                 goroutines := goroutines s |})
    | Wait c =>
      (* c.wg.Wait(); return c.val, c.err, true; v, _, _ := ... *)
      match calls s !! c with
      | Some cl =>
        if done cl then Some (set_goroutine t (at_pc g (Return (val cl))) s)
        else None
      | None => None
      end
    | Return v =>
      (* line 267: the type assertion of v to a pointer to gorm.DB
         panics on a nil interface; then err is read *)
      match v with
      | Some h => Some (set_goroutine t (at_pc g (Returned (Some h) (g_err g))) s)
      | None => Some (set_goroutine t (at_pc g Panicked) s)
      end
    | Returned _ _ => None
    | Panicked => None
    end
  end.

(** A schedule: the goroutines that step, in order.  [None] when one of
    them cannot step at its turn. *)
Fixpoint run (schedule : list nat) (s : state) : option state :=
  match schedule with
  | [] => Some s
  | t :: rest =>
    match step t s with
    | Some s' => run rest s'
    | None => None
    end
  end.

(** A new goroutine that calls [Get(ctx, name, dsn)]. *)
Definition spawn (name dsn : string) (s : state) : nat * state :=
  (length (goroutines s),
   {| dbs := dbs s; sfg := sfg s; calls := calls s; opens := opens s;
      conns := conns s;
      goroutines := goroutines s ++
        [{| g_name := name; g_dsn := dsn; g_db := None; g_err := None;
            g_pc := Enter |}] |}).

(** Goroutine [t] alone, until it cannot step or [fuel] steps are done. *)
Fixpoint run_alone (fuel : nat) (t : nat) (s : state) : state :=
  match fuel with
  | O => s
  | S fuel =>
    match step t s with
    | Some s' => run_alone fuel t s'
    | None => s
    end
  end.

(** How a call of [Get] stands or ended. *)
Definition outcome (t : nat) (s : state) : option pc :=
  g_pc <$> goroutines s !! t.

(** A call [Get(ctx, name, dsn)] while no other goroutine runs: the
    state it leaves and how it ended.  No path of [Get] is longer than
    six steps. *)
Definition Get (name dsn : string) (s : state) : state * option pc :=
  let '(t, s) := spawn name dsn s in
  let s := run_alone 6 t s in
  (s, outcome t s).

End Machine.

(** The registry of a process that has just started, with [n] goroutines
    about to call [Get(ctx, name, dsn)]. *)
Definition launch (n : nat) (name dsn : string) : state :=
  {| dbs := ∅; sfg := ∅; calls := []; opens := 0; conns := [];
     goroutines := replicate n {| g_name := name; g_dsn := dsn; g_db := None;
                                  g_err := None; g_pc := Enter |} |}.

End Registry.

(** * Predicates and compound operations of the properties *)

Module Props.
Import Vocabulary MyError World Plugin.

(** The execution context of an operation, when the handle, its
    statement and the context of the statement are all there. *)
Definition context_of (db : option DB) : option nat :=
  match db with
  | None => None
  | Some d =>
    match db_Statement d with
    | None => None
    | Some stmt => Context stmt
    end
  end.

(** Two option sets that agree on everything but [logResult], [tracer]
    and [logSqlParameters]. *)
Definition same_but_logging_and_tracer (o1 o2 : options) : Prop :=
  createOpName o1 = createOpName o2 /\ updateOpName o1 = updateOpName o2 /\
  queryOpName o1 = queryOpName o2 /\ deleteOpName o1 = deleteOpName o2 /\
  rowOpName o1 = rowOpName o2 /\ rawOpName o1 = rawOpName o2 /\
  opt_errorTagHook o1 = opt_errorTagHook o2.

(** The before hook of each operation kind and the option that names
    its span. *)
Definition before_hook `{Util} (k : processor) : OpentracingPlugin -> option DB -> world -> world :=
  match k with
  | Create => beforeCreate
  | Update => beforeUpdate
  | Query => beforeQuery
  | Delete => beforeDelete
  | Row => beforeRow
  | Raw => beforeRaw
  end.

Definition configured_name (k : processor) (o : options) : operationName :=
  match k with
  | Create => createOpName o
  | Update => updateOpName o
  | Query => queryOpName o
  | Delete => deleteOpName o
  | Row => rowOpName o
  | Raw => rawOpName o
  end.

(** The span that [Start] creates. *)
Definition fresh_span (p : TracerProvider) (tracer name : string) : span :=
  {| sp_provider := p; sp_tracer := tracer; sp_name := name;
     sp_attrs := []; sp_errors := []; sp_status := None; sp_ended := false |}.

(** The twelve stage identifiers, in the order of [Initialize]. *)
Definition stages : list operationStage :=
  [ _stageBeforeCreate; _stageAfterCreate; _stageBeforeUpdate; _stageAfterUpdate;
    _stageBeforeQuery; _stageAfterQuery; _stageBeforeDelete; _stageAfterDelete;
    _stageBeforeRow; _stageAfterRow; _stageBeforeRaw; _stageAfterRaw ].

(** The text that opens the entry of a stage in the combined message. *)
Definition entry_head (stage : operationStage) : string :=
  "stage=" +:+ Name stage +:+ ":".

(** [n] calls of [Get(ctx, name, dsn)], one after the other: the state at
    the end and how each call ended. *)
Fixpoint Get_times (open_err : nat -> string -> error) (n : nat)
    (name dsn : string) (s : Registry.state) : Registry.state * list (option Registry.pc) :=
  match n with
  | O => (s, [])
  | S n =>
    let '(s, r) := Registry.Get open_err name dsn s in
    let '(s, rs) := Get_times open_err n name dsn s in
    (s, r :: rs)
  end.

End Props.

(** * Concrete inputs *)

Module Scenarios.
Import Vocabulary MyError World Plugin Registry.

(** The semantic-convention attributes for MySQL. *)
Definition semconv : Util :=
  {| DBSystemValue := ("db.system", "mysql");
     DBNameKey := "db.name";
     DBStatementKey := "db.statement" |}.

(** A dialector that puts the parameters, in order, after the statement. *)
Definition render (p : param) : string :=
  match p with
  | PInt n => if (n =? 42)%Z then "42" else "?"
  | PStr s => s
  end.

Definition mysql : Dialector :=
  {| d_Name := "mysql";
     Explain := fun sql vars => sql +:+ " -- " +:+ String.concat "," (map render vars) |}.

Definition select_user : Statement :=
  {| st_ptr := 1; Context := Some 5;
     SQL := "SELECT * FROM users WHERE id = ?"; Vars := [PInt 42] |}.

Definition db_query : DB :=
  {| db_Dialector := mysql; db_Statement := Some select_user |}.

Definition db_no_statement : DB :=
  {| db_Dialector := mysql; db_Statement := None |}.

(** 00:00 UTC on January 1 of 2024, in nanoseconds since the zero time. *)
Definition new_year_2024 : Time.Time := (63839664000 * 1000000000)%Z.

Definition w0 : world :=
  {| w_provider := 7; w_spans := []; w_settings := ∅;
     w_now := new_year_2024; w_log := [] |}.

Definition plugin_default : OpentracingPlugin := New w0 [].

Definition plugin_verbose : OpentracingPlugin :=
  New w0 [WithLogResult true; WithSqlParameters false; WithTracer (Some 99)].

(** A host that refuses a hook whose name is taken and keeps every
    hook it accepted. *)
Definition name_table := list string.

Definition register_once (r : registration) (c : name_table) : name_table * error :=
  if decide (reg_name r ∈ c) then (c, Some "name taken")
  else (c ++ [reg_name r], None).

Definition once : Callbacks name_table := {| Register := register_once |}.

(** Three names taken before the plugin is installed. *)
Definition three_taken : name_table :=
  ["otel:after_create"; "otel:before_query"; "otel:after_raw"].

(** Every invocation of [gorm.Open] succeeds; every one fails. *)
Definition open_ok : nat -> string -> error := fun _ _ => None.
Definition open_refused : nat -> string -> error :=
  fun _ _ => Some "dial tcp 127.0.0.1:3306: connect: connection refused".

(** Ten goroutines miss the cache; goroutine 0 then runs its flight to
    the end; only then do the other nine enter the single-flight group,
    where goroutine 1 finds no call in flight and leads a second one. *)
Definition late_schedule : list nat :=
  seq 0 10 ++ [0; 0; 0; 0; 0] ++ seq 1 9 ++ [1; 1; 1; 1] ++ seq 2 8 ++ seq 2 8.

(** Ten goroutines miss the cache and enter the group while the call of
    goroutine 0 is in flight. *)
Definition joined_schedule : list nat :=
  [0; 0] ++ seq 1 9 ++ seq 1 9 ++ [0; 0; 0; 0] ++ seq 1 9 ++ seq 1 9.

(** The same with an [Open] that fails: the leader has one step less. *)
Definition joined_schedule_failing : list nat :=
  [0; 0] ++ seq 1 9 ++ seq 1 9 ++ [0; 0; 0] ++ seq 1 9 ++ seq 1 9.

End Scenarios.

(** * Further definitions: attribute keys, option calls, the clock, and
    the states the registry can reach *)

Module Keys.

(** Lines 70-86. *)
Definition _prefix : string := "gorm.otel".
Definition _errorTagKey : string := "error".

Definition keyWithPrefix (key : string) : string := _prefix +:+ "." +:+ key.

Definition _tableTagKey : string := keyWithPrefix "table".
Definition _resultLogKey : string := keyWithPrefix "result".
Definition _sqlLogKey : string := keyWithPrefix "sql".
Definition _rowsAffectedLogKey : string := keyWithPrefix "rowsAffected".
Definition spanKey : string := "otel:span".

End Keys.

Module Calls.
Import Vocabulary World Plugin.

(** The option constructors that the package exports (lines 208-226), as
    data: a caller of [New] can only pass results of these. *)
Inductive option_call :=
| CallLogResult (b : bool)
| CallTracer (t : option TracerProvider)
| CallSqlParameters (b : bool).

Definition apply_call (c : option_call) : ApplyOption :=
  match c with
  | CallLogResult b => WithLogResult b
  | CallTracer t => WithTracer t
  | CallSqlParameters b => WithSqlParameters b
  end.

(** The value that the last [WithLogResult] of a list of calls gave, [d]
    when there is none; the same for the other two options, where a
    [WithTracer(nil)] does not count. *)
Fixpoint last_logResult (d : bool) (cs : list option_call) : bool :=
  match cs with
  | [] => d
  | CallLogResult b :: rest => last_logResult b rest
  | _ :: rest => last_logResult d rest
  end.

Fixpoint last_sqlParameters (d : bool) (cs : list option_call) : bool :=
  match cs with
  | [] => d
  | CallSqlParameters b :: rest => last_sqlParameters b rest
  | _ :: rest => last_sqlParameters d rest
  end.

Fixpoint last_tracer (d : TracerProvider) (cs : list option_call) : TracerProvider :=
  match cs with
  | [] => d
  | CallTracer (Some p) :: rest => last_tracer p rest
  | _ :: rest => last_tracer d rest
  end.

(** The registration that [Initialize] should make for the before hook
    and for the after hook of an operation kind, were all six kinds
    treated alike: the stage is [otel:before_<kind>] or
    [otel:after_<kind>], the anchor [gorm:<kind>]. *)
Definition default_name (k : processor) : operationName :=
  match k with
  | Create => _createOp
  | Update => _updateOp
  | Query => _queryOp
  | Delete => _deleteOp
  | Row => _rowOp
  | Raw => _rawOp
  end.

Definition before_registration `{Util} (op : OpentracingPlugin) (k : processor) : registration :=
  {| reg_processor := k;
     reg_position := Before ("gorm:" +:+ default_name k);
     reg_name := "otel:before_" +:+ default_name k;
     reg_fn := Props.before_hook k op |}.

Definition after_registration `{Util} (op : OpentracingPlugin) (k : processor) : registration :=
  {| reg_processor := k;
     reg_position := After ("gorm:" +:+ default_name k);
     reg_name := "otel:after_" +:+ default_name k;
     reg_fn := after op |}.

Definition kinds : list processor := [Create; Update; Query; Delete; Row; Raw].

(** The clock moves on to [now]. *)
Definition set_now (now : Time.Time) (w : world) : world :=
  {| w_provider := w_provider w; w_spans := w_spans w;
     w_settings := w_settings w; w_now := now; w_log := w_log w |}.

End Calls.

Module Reach.
Import Registry.

(** The call that a goroutine leads, when it is inside the function it
    gave to [sfg.Do] or in the cleanup of [Do]. *)
Definition leads (g : goroutine) : option nat :=
  match g_pc g with
  | Opening c | Publish c _ | Cleanup c _ _ => Some c
  | _ => None
  end.

(** A goroutine whose call of [Get] has ended. *)
Definition finished (g : goroutine) : bool :=
  match g_pc g with
  | Returned _ _ | Panicked => true
  | _ => false
  end.

(** A handle behind which there is a connection that the plugin was
    given to. *)
Definition installed (s : state) (h : handle) : Prop :=
  exists cn, conns s !! h = Some cn /\ c_used cn = ["otel"].

(** The steps that a goroutine has at most left. *)
Definition remaining (g : goroutine) : nat :=
  match g_pc g with
  | Enter => 6
  | Miss => 5
  | Opening _ => 4
  | Publish _ _ => 3
  | Cleanup _ _ _ => 2
  | Wait _ => 2
  | Return _ => 1
  | Returned _ _ | Panicked => 0
  end.

Definition total_remaining (s : state) : nat :=
  sum_list (remaining <$> goroutines s).

(** A call that is in flight under a key. *)
Definition in_flight (s : state) (name : string) (c : nat) : Prop :=
  sfg s !! name = Some c /\ exists cl, calls s !! c = Some cl /\ done cl = false.

(** What holds of a goroutine at each point of [Get]: its [err] is [nil]
    until [gorm.Open] has failed; while it leads a call, the call is in
    flight under its name; a handle it holds is installed. *)
Definition good (s : state) (g : goroutine) : Prop :=
  match g_pc g with
  | Enter | Miss => g_err g = None
  | Opening c => g_err g = None /\ in_flight s (g_name g) c
  | Publish c h => g_err g = None /\ in_flight s (g_name g) c /\ installed s h
  | Cleanup c (Some h) _ => g_err g = None /\ in_flight s (g_name g) c /\ installed s h
  | Cleanup c None _ => in_flight s (g_name g) c
  | Wait c => g_err g = None /\ c < length (calls s)
  | Return (Some h) => g_err g = None /\ installed s h
  | Return None => True
  | Returned db e => e = None /\ exists h, db = Some h /\ installed s h
  | Panicked => True
  end.

(** The invariant of the registry. *)
Record inv (s : state) : Prop := {
  inv_good : forall t g, goroutines s !! t = Some g -> good s g;
  inv_leader : forall t1 t2 g1 g2 c,
    goroutines s !! t1 = Some g1 -> goroutines s !! t2 = Some g2 ->
    leads g1 = Some c -> leads g2 = Some c -> t1 = t2;
  inv_dbs : forall name h, dbs s !! name = Some h -> installed s h;
  inv_calls : forall c cl, calls s !! c = Some cl ->
    if done cl then forall h, val cl = Some h -> installed s h
    else exists t g, goroutines s !! t = Some g /\ leads g = Some c;
  inv_sfg : forall name c, sfg s !! name = Some c -> c < length (calls s)
}.

(** The goroutines that are about to invoke [gorm.Open]. *)
Definition opening (g : goroutine) : nat :=
  match g_pc g with
  | Opening _ => 1
  | _ => 0
  end.

Section Reachable.
Variable open_err : nat -> string -> error.

(** The states of a process: it starts with an empty registry and no
    goroutine; at any time a goroutine may be started on a call of [Get],
    and any goroutine that can step may step. *)
Inductive reachable : state -> Prop :=
| reach_start : reachable (launch 0 "" "")
| reach_spawn s name dsn :
    reachable s -> reachable (spawn name dsn s).2
| reach_step s t s' :
    reachable s -> step open_err t s = Some s' -> reachable s'.

(** The state after a schedule, and the state itself when the schedule
    cannot be run. *)
Definition run_or_stay (schedule : list nat) (s : state) : state :=
  default s (run open_err schedule s).

End Reachable.

End Reach.

(** * More concrete inputs *)

Module Cases.
Import World Plugin Registry Reach Scenarios.

(** The clock a millisecond and a half after [w0]. *)
Definition a_little_later : Time.Time := (new_year_2024 + 1500000)%Z.

(** A world where some other party has put a string under both keys of
    the statement. *)
Definition w_foreign : world :=
  InstanceSet select_user "span" (VOther "not a span")
    (InstanceSet select_user "start_time" (VOther "not a time") w0).

(** The world after the before hook of a query. *)
Definition w_started : world :=
  @beforeQuery semconv plugin_default (Some db_query) w0.

(** Ten goroutines, all through [Get] on [late_schedule]. *)
Definition s_late : state :=
  run_or_stay open_ok late_schedule (launch 10 "main" "dsn").

(** Two goroutines: the first leads a call, the second has yet to start. *)
Definition s_leading : state :=
  run_or_stay open_ok [0; 0] (launch 2 "main" "dsn").

(** Two goroutines: the first leads a call, the second waits for it. *)
Definition s_waiting : state :=
  run_or_stay open_ok [0; 0; 1; 1] (launch 2 "main" "dsn").

(** The same once the call of the first has ended. *)
Definition s_released : state :=
  run_or_stay open_ok [0; 0; 1; 1; 0; 0; 0] (launch 2 "main" "dsn").

End Cases.

(** * Properties of the error accumulator *)

Section ErrorAccumulator.
Import Vocabulary MyError.

Lemma add_all_errs (e : myError) (calls : list (operationStage * error)) :
  errs (add_all e calls) = errs e ++ entries calls.
Proof.
  revert e; induction calls as [|[stage [msg|]] rest IH]; intros e; simpl.
  - by rewrite app_nil_r.
  - rewrite IH; simpl. rewrite <- app_assoc. reflexivity.
  - apply IH.
Qed.

Lemma toError_Error (e : myError) :
  Error <$> toError e =
  match errs e with [] => None | l => Some (String.concat ";" l) end.
Proof. destruct e as [[|x l]]; reflexivity. Qed.

(** C4, as the specification has it, fails: the entry that [add] appends
    for stage [otel:before_create] and message [boom] is not
    [otel:before_create:boom]. *)
Lemma add_entry_differs_from_spec :
  errs (add {| errs := [] |} _stageBeforeCreate (Some "boom"))
  <> [spec_entry _stageBeforeCreate "boom"].
Proof. vm_compute. discriminate. Qed.

(** C4 (amended).  For every accumulator and every sequence of [add]
    calls: an [add] with an error appends exactly the string
    ["stage=" + stage + ":" + message], an [add] without an error changes
    nothing, the accumulator ends with the entries of the calls that
    carried an error, in call order, and [toError] is [nil] when there
    is no entry and otherwise an error whose message is the entries joined
    by [;]. *)
Theorem add_all_toError (e : myError) (calls : list (operationStage * error)) :
  (forall stage msg,
     errs (add e stage (Some msg)) = errs e ++ ["stage=" +:+ stage +:+ ":" +:+ msg]) /\
  (forall stage, add e stage None = e) /\
  errs (add_all e calls) = errs e ++ entries calls /\
  Error <$> toError (add_all e calls) =
    match errs e ++ entries calls with
    | [] => None
    | l => Some (String.concat ";" l)
    end.
Proof.
  repeat split.
  - apply add_all_errs.
  - rewrite toError_Error. by rewrite add_all_errs.
Qed.

End ErrorAccumulator.

(** * Properties of the options *)

Section Options.
Import Vocabulary World Plugin.

Lemma apply_options_snoc (o : options) (opts : list ApplyOption) (f : ApplyOption) :
  apply_options o (opts ++ [f]) = f (apply_options o opts).
Proof. revert o; induction opts as [|g opts IH]; intros o; simpl; [done | apply IH]. Qed.

(** C8.  The default options have [logResult] false, [logSqlParameters]
    true and the process-wide tracer provider; [New] starts from them and
    applies the option functions in order; [WithTracer(nil)] leaves the
    options as they are, so after [New(WithTracer(nil))] the tracer is
    the process-wide provider, not [nil]. *)
Theorem New_applies_options_in_order (w : world) (opts : list ApplyOption) (f : ApplyOption) :
  logResult (defaultOption w) = false /\
  logSqlParameters (defaultOption w) = true /\
  tracer (defaultOption w) = Some (w_provider w) /\
  opt (New w []) = defaultOption w /\
  opt (New w (opts ++ [f])) = f (opt (New w opts)) /\
  (forall o, WithTracer None o = o) /\
  tracer (opt (New w (opts ++ [WithTracer None]))) = tracer (opt (New w opts)) /\
  tracer (opt (New w [WithTracer None])) = Some (w_provider w).
Proof.
  repeat split; simpl.
  - apply apply_options_snoc.
  - by rewrite apply_options_snoc.
Qed.

End Options.

(** * Properties of the hooks *)

Section HookProperties.
Import Vocabulary World Plugin Props Scenarios.
Context `{Util}.

Lemma alter_last {A} (f : A -> A) (l : list A) (x : A) :
  alter f (length l) (l ++ [x]) = l ++ [f x].
Proof. rewrite alter_app_r_alt by lia. by rewrite Nat.sub_diag. Qed.

(** What [injectBefore] does when the execution context is there. *)
Lemma injectBefore_present op d stmt ctx name w :
  db_Statement d = Some stmt -> Context stmt = Some ctx ->
  injectBefore op (Some d) name w =
  {| w_provider := w_provider w;
     w_spans := w_spans w ++
       [{| sp_provider := w_provider w; sp_tracer := "MySQL-Operation";
           sp_name := name;
           sp_attrs := [DBSystemValue; Key_String DBNameKey (DB_Name d)];
           sp_errors := []; sp_status := None; sp_ended := false |}];
     w_settings := <[(st_ptr stmt, "span") := VSpan (length (w_spans w))]>
                     (<[(st_ptr stmt, "start_time") := VTime (w_now w)]> (w_settings w));
     w_now := w_now w;
     w_log := w_log w |}.
Proof.
  intros Hs Hc. unfold injectBefore. rewrite Hs, Hc.
  unfold Start, SetAttributes, with_span, InstanceSet; simpl.
  by rewrite !alter_last.
Qed.

Lemma injectBefore_absent op db name w :
  context_of db = None -> injectBefore op db name w = w.
Proof.
  destruct db as [d|]; simpl; [|done].
  destruct (db_Statement d) as [stmt|]; simpl; [|done].
  by intros ->.
Qed.

Lemma extractAfter_absent op db w :
  context_of db = None -> extractAfter op db w = w.
Proof.
  destruct db as [d|]; simpl; [|done].
  destruct (db_Statement d) as [stmt|]; simpl; [|done].
  by intros ->.
Qed.

(** [injectBefore] and [extractAfter] never look at their receiver. *)
Lemma injectBefore_any_plugin op1 op2 db name w :
  injectBefore op1 db name w = injectBefore op2 db name w.
Proof. reflexivity. Qed.

Lemma extractAfter_any_plugin op1 op2 db w :
  extractAfter op1 db w = extractAfter op2 db w.
Proof. reflexivity. Qed.

Lemma before_hook_unfold k op db w :
  before_hook k op db w = injectBefore op db (configured_name k (opt op)) w.
Proof. by destruct k. Qed.

(** The line that [extractAfter] logs when the execution context is
    there, whatever the instance store holds. *)
Lemma extractAfter_log op d stmt ctx w :
  db_Statement d = Some stmt -> Context stmt = Some ctx ->
  w_log (extractAfter op (Some d) w) =
  w_log w ++
    [{| lg_ctx := ctx; lg_name := DB_Name d;
        lg_cost := Time.Since (w_now w)
                     match InstanceGet stmt "start_time" w with
                     | Some (VTime t) => t
                     | _ => Time.zero
                     end;
        lg_sql := Explain (db_Dialector d) (SQL stmt) (Vars stmt) |}].
Proof.
  intros Hs Hc. unfold extractAfter. rewrite Hs, Hc.
  destruct (InstanceGet stmt "span" w) as [[t|s|x]|]; reflexivity.
Qed.

Lemma Since_zero (now : Time.Time) : Time.Since now Time.zero =
  Z.max Time.minDuration (Z.min Time.maxDuration now).
Proof.
  unfold Time.Since, Time.Sub, Time.zero, Time.maxDuration, Time.minDuration.
  rewrite Z.sub_0_r.
  destruct (Z.ltb_spec (2 ^ 63 - 1) now), (Z.ltb_spec now (- 2 ^ 63)); lia.
Qed.

(** C6.  When the handle, its statement or the context of the statement
    is [nil], [injectBefore], each of the six before hooks and the after
    hook return the world as it was: no span started or ended, no
    instance state written, nothing logged, no failure. *)
Theorem hooks_skip_absent_context op db name w :
  context_of db = None ->
  injectBefore op db name w = w /\
  extractAfter op db w = w /\
  (forall k, before_hook k op db w = w) /\
  after op db w = w.
Proof.
  intros Habs. repeat split.
  - by apply injectBefore_absent.
  - by apply extractAfter_absent.
  - intros k. rewrite before_hook_unfold. by apply injectBefore_absent.
  - by apply extractAfter_absent.
Qed.

(** C7 (amended).  When the execution context is there and the instance
    store holds neither [start_time] nor [span], the after hook ends
    normally, touches no span and no instance state, and logs one line
    whose elapsed duration is [time.Since] of the zero time: the clock
    reading, cut to the range of a [Duration].  That duration is zero
    only when the clock reads the zero time itself. *)
Theorem after_without_before op d stmt ctx w :
  db_Statement d = Some stmt -> Context stmt = Some ctx ->
  InstanceGet stmt "start_time" w = None ->
  InstanceGet stmt "span" w = None ->
  w_spans (after op (Some d) w) = w_spans w /\
  w_settings (after op (Some d) w) = w_settings w /\
  w_log (after op (Some d) w) =
    w_log w ++
      [{| lg_ctx := ctx; lg_name := DB_Name d;
          lg_cost := Z.max Time.minDuration (Z.min Time.maxDuration (w_now w));
          lg_sql := Explain (db_Dialector d) (SQL stmt) (Vars stmt) |}] /\
  (Z.max Time.minDuration (Z.min Time.maxDuration (w_now w)) = 0%Z <-> w_now w = Time.zero).
Proof.
  intros Hs Hc Ht Hsp. unfold after.
  rewrite (extractAfter_log _ _ _ _ _ Hs Hc), Ht, Since_zero.
  unfold extractAfter. rewrite Hs, Hc, Hsp. simpl.
  repeat split; unfold Time.zero, Time.minDuration, Time.maxDuration; lia.
Qed.

(** C9.  When the execution context is there, the before hook of an
    operation kind starts one span, named by the option of that kind, on
    the tracer [MySQL-Operation] of the process-wide provider, sets on it
    the database-system attribute and then the database-name attribute
    with [db.Name()], and stores the clock reading under [start_time]
    and the span under [span] in the instance store of the statement;
    nothing else of the store changes and nothing is logged. *)
Theorem before_starts_span_and_stores_state k op d stmt ctx w :
  db_Statement d = Some stmt -> Context stmt = Some ctx ->
  w_spans (before_hook k op (Some d) w) =
    w_spans w ++
      [{| sp_provider := w_provider w; sp_tracer := "MySQL-Operation";
          sp_name := configured_name k (opt op);
          sp_attrs := [DBSystemValue; Key_String DBNameKey (DB_Name d)];
          sp_errors := []; sp_status := None; sp_ended := false |}] /\
  InstanceGet stmt "start_time" (before_hook k op (Some d) w) = Some (VTime (w_now w)) /\
  InstanceGet stmt "span" (before_hook k op (Some d) w) = Some (VSpan (length (w_spans w))) /\
  (forall key, key <> (st_ptr stmt, "start_time") -> key <> (st_ptr stmt, "span") ->
     w_settings (before_hook k op (Some d) w) !! key = w_settings w !! key) /\
  w_log (before_hook k op (Some d) w) = w_log w.
Proof.
  intros Hs Hc. rewrite before_hook_unfold.
  rewrite (injectBefore_present _ _ _ _ _ _ Hs Hc).
  unfold InstanceGet; simpl. repeat split.
  - rewrite lookup_insert_ne by (intros [=]). by rewrite lookup_insert_eq.
  - by rewrite lookup_insert_eq.
  - intros key H1 H2. by rewrite !lookup_insert_ne.
Qed.

(** C10.  Two plugins whose options differ only in [logResult],
    [logSqlParameters] and [tracer] have the same hooks: each before hook
    and the after hook map every handle and world to the same world.  A
    span that a before hook starts comes from the tracer
    [MySQL-Operation] of the process-wide provider, whatever [tracer] is
    configured, and the SQL that the after hook logs is [Explain] of the
    statement with all its bound parameters, whatever [logSqlParameters]
    says. *)
Theorem hooks_ignore_logging_and_tracer_options op1 op2 :
  same_but_logging_and_tracer (opt op1) (opt op2) ->
  (forall k db w, before_hook k op1 db w = before_hook k op2 db w) /\
  (forall db w, after op1 db w = after op2 db w) /\
  (forall k db w,
     Forall (fun sp => sp_provider sp = w_provider w /\ sp_tracer sp = "MySQL-Operation")
            (drop (length (w_spans w)) (w_spans (before_hook k op1 db w)))) /\
  (forall d stmt ctx w,
     db_Statement d = Some stmt -> Context stmt = Some ctx ->
     lg_sql <$> drop (length (w_log w)) (w_log (after op1 (Some d) w)) =
     [Explain (db_Dialector d) (SQL stmt) (Vars stmt)]).
Proof.
  intros (Hc & Hu & Hq & Hd & Hr & Hw & _). repeat split.
  - intros k db w. rewrite !before_hook_unfold.
    replace (configured_name k (opt op2)) with (configured_name k (opt op1))
      by (destruct k; simpl; congruence).
    apply injectBefore_any_plugin.
  - intros k db w. rewrite before_hook_unfold.
    destruct (context_of db) as [ctx|] eqn:Hctx.
    + destruct db as [d|]; [|done]. simpl in Hctx.
      destruct (db_Statement d) as [stmt|] eqn:Hs; [|done].
      rewrite (injectBefore_present _ _ _ _ _ _ Hs Hctx); simpl.
      rewrite drop_app_length. by repeat constructor.
    + rewrite injectBefore_absent by done.
      rewrite drop_all. constructor.
  - intros d stmt ctx w Hs Hctx. unfold after.
    rewrite (extractAfter_log _ _ _ _ _ Hs Hctx).
    by rewrite drop_app_length.
Qed.

End HookProperties.

(** * Properties of the installation *)

Section Installation.
Import Vocabulary MyError World Plugin Props.
Context `{Util} {C : Type} `{Callbacks C}.

(** What the host promises about the hooks it holds: a registration that
    returns no error leaves the hook active, and no registration, failed
    or not, removes a hook that was active. *)
Variable active : C -> string -> Prop.
Hypothesis Register_activates :
  forall r db db', Register r db = (db', None) -> active db' (reg_name r).
Hypothesis Register_keeps :
  forall r db n, active db n -> active (Register r db).1 n.

Lemma Initialize_attempt_all op db :
  Initialize op db =
  ((attempt_all (installations op) db).1,
   toError (add_all {| errs := [] |} (attempt_all (installations op) db).2)).
Proof.
  unfold Initialize, installations, Name. cbn [attempt_all reg_name].
  repeat match goal with
         | |- context [Register ?r ?d] => destruct (Register r d)
         end.
  reflexivity.
Qed.

Lemma attempt_all_names rs db :
  (attempt_all rs db).2.*1 = reg_name <$> rs.
Proof.
  revert db; induction rs as [|r rs IH]; intros db; simpl; [done|].
  destruct (Register r db) as [db1 e].
  specialize (IH db1). destruct (attempt_all rs db1) as [db2 outs].
  change (reg_name r :: outs.*1 = reg_name r :: (reg_name <$> rs)).
  f_equal. exact IH.
Qed.

Lemma attempt_all_keeps rs db n :
  active db n -> active (attempt_all rs db).1 n.
Proof.
  revert db; induction rs as [|r rs IH]; intros db Hn; simpl; [done|].
  pose proof (Register_keeps r db n Hn) as Hk.
  destruct (Register r db) as [db1 e]; simpl in Hk.
  specialize (IH db1 Hk). by destruct (attempt_all rs db1).
Qed.

Lemma attempt_all_active rs db stage :
  (stage, None) ∈ (attempt_all rs db).2 -> active (attempt_all rs db).1 stage.
Proof.
  revert db; induction rs as [|r rs IH]; intros db; simpl.
  - intros Hin. by apply elem_of_nil in Hin.
  - destruct (Register r db) as [db1 e] eqn:Hr.
    pose proof (attempt_all_keeps rs db1 stage) as Hk.
    specialize (IH db1).
    destruct (attempt_all rs db1) as [db2 outs]; simpl in *.
    intros [Hhd|Htl]%elem_of_cons; [|by apply IH].
    injection Hhd as -> <-. apply Hk. by apply (Register_activates _ _ _ Hr).
Qed.

Lemma entries_elem (outs : list (operationStage * error)) (x : string) :
  x ∈ entries outs <-> exists stage msg, (stage, Some msg) ∈ outs /\ x = entry stage msg.
Proof.
  induction outs as [|[stage [msg|]] outs IH]; simpl.
  - split; [intros Hx; by apply elem_of_nil in Hx|].
    intros (? & ? & Hx & _). by apply elem_of_nil in Hx.
  - rewrite elem_of_cons, IH. split.
    + intros [->|(st & m & Hin & ->)].
      * exists stage, msg. split; [left|done].
      * exists st, m. split; [by right|done].
    + intros (st & m & [Heq|Hin]%elem_of_cons & ->).
      * injection Heq as -> ->. by left.
      * right. by exists st, m.
  - rewrite IH. split.
    + intros (st & m & Hin & ->). exists st, m. split; [by right|done].
    + intros (st & m & [Heq|Hin]%elem_of_cons & ->); [done|].
      by exists st, m.
Qed.

Lemma entries_nil (outs : list (operationStage * error)) :
  entries outs = [] <-> Forall (fun o => o.2 = None) outs.
Proof.
  induction outs as [|[stage [msg|]] outs IH]; simpl.
  - split; [constructor|done].
  - split; [done|]. intros Hall. by inversion Hall.
  - rewrite IH. split; [by constructor|]. intros Hall. by inversion Hall.
Qed.

(** The head of the entry of one of the twelve stages opens no entry of
    another of them. *)
Lemma entry_head_stage s t msg :
  s ∈ stages -> t ∈ stages ->
  String.prefix (entry_head s) (entry t msg) = true <-> s = t.
Proof.
  unfold stages. intros Hs Ht.
  repeat (apply elem_of_cons in Hs as [->|Hs]);
    try (by apply elem_of_nil in Hs);
    repeat (apply elem_of_cons in Ht as [->|Ht]);
    try (by apply elem_of_nil in Ht);
    (split; [intros Hp | intros Heq]);
    solve [ reflexivity
          | exfalso; vm_compute in Hp; discriminate Hp
          | exfalso; vm_compute in Heq; discriminate Heq
          | destruct msg; reflexivity ].
Qed.


End Installation.

(** * Properties of the registry *)

Section RegistryProperties.
Import Registry Props.
Variable open_err : nat -> string -> error.

Lemma insert_last {A} (l : list A) (x y : A) :
  <[length l := y]> (l ++ [x]) = l ++ [y].
Proof. rewrite insert_app_r_alt by lia. by rewrite Nat.sub_diag. Qed.

Lemma run_alone_step fuel t s s' :
  step open_err t s = Some s' ->
  run_alone open_err (S fuel) t s = run_alone open_err fuel t s'.
Proof. intros Hs; simpl. by rewrite Hs. Qed.

Lemma run_alone_blocked fuel t s :
  step open_err t s = None -> run_alone open_err fuel t s = s.
Proof. intros Hs. destruct fuel; simpl; [done | by rewrite Hs]. Qed.

(** The step of the goroutine that was spawned last, computed. *)
Ltac last_step :=
  unfold step;
  unfold set_goroutine, at_pc, assign;
  cbn [goroutines g_pc g_name g_dsn g_err g_db dbs sfg calls opens conns];
  rewrite ?insert_last;
  rewrite (list_lookup_middle _ [] _ _ eq_refl);
  unfold set_goroutine, at_pc, assign;
  cbn [goroutines g_pc g_name g_dsn g_err g_db dbs sfg calls opens conns].

Ltac alone_step H :=
  erewrite run_alone_step; [ | last_step; rewrite ?H; reflexivity ].

Ltac alone_end :=
  rewrite run_alone_blocked by (last_step; reflexivity);
  unfold outcome;
  unfold set_goroutine, at_pc, assign;
  cbn [goroutines g_pc g_name g_dsn g_err g_db dbs sfg calls opens conns];
  rewrite ?insert_last;
  rewrite (list_lookup_middle _ [] _ _ eq_refl).

(** [Get] on a name that is in [dbs]: one step. *)
Lemma Get_hit name dsn s h :
  dbs s !! name = Some h ->
  Get open_err name dsn s =
  ({| dbs := dbs s; sfg := sfg s; calls := calls s; opens := opens s;
      conns := conns s;
      goroutines := goroutines s ++
        [{| g_name := name; g_dsn := dsn; g_db := Some h; g_err := None;
            g_pc := Returned (Some h) None |}] |},
   Some (Returned (Some h) None)).
Proof.
  intros Hhit. unfold Get, spawn.
  alone_step Hhit. alone_end. reflexivity.
Qed.

(** [Get] on a name that is neither in [dbs] nor in flight, when
    [gorm.Open] fails. *)
Lemma Get_miss_fail name dsn s msg :
  dbs s !! name = None -> sfg s !! name = None ->
  open_err (opens s) dsn = Some msg ->
  Get open_err name dsn s =
  ({| dbs := dbs s; sfg := sfg s;
      calls := calls s ++ [{| val := None; err := Some msg; done := true |}];
      opens := S (opens s);
      conns := conns s;
      goroutines := goroutines s ++
        [{| g_name := name; g_dsn := dsn; g_db := None; g_err := Some msg;
            g_pc := Panicked |}] |},
   Some Panicked).
Proof.
  intros Hmiss Hsfg Hopen. unfold Get, spawn.
  alone_step Hmiss. alone_step Hsfg. alone_step Hopen.
  alone_step Hopen. alone_step Hopen. alone_end.
  rewrite delete_insert_id by done. reflexivity.
Qed.

(** The same when [gorm.Open] succeeds. *)
Lemma Get_miss_ok name dsn s :
  dbs s !! name = None -> sfg s !! name = None ->
  open_err (opens s) dsn = None ->
  Get open_err name dsn s =
  ({| dbs := <[name := length (conns s)]> (dbs s); sfg := sfg s;
      calls := calls s ++
        [{| val := Some (length (conns s)); err := None; done := true |}];
      opens := S (opens s);
      conns := conns s ++ [{| c_dsn := dsn; c_used := ["otel"] |}];
      goroutines := goroutines s ++
        [{| g_name := name; g_dsn := dsn; g_db := Some (length (conns s));
            g_err := None;
            g_pc := Returned (Some (length (conns s))) None |}] |},
   Some (Returned (Some (length (conns s))) None)).
Proof.
  intros Hmiss Hsfg Hopen. unfold Get, spawn.
  alone_step Hmiss. alone_step Hsfg. alone_step Hopen.
  alone_step Hopen. alone_step Hopen. alone_step Hopen. alone_end.
  rewrite delete_insert_id by done. reflexivity.
Qed.

(** C2 fails on the code.  When the name is not cached, no call is in
    flight for it and [gorm.Open] fails with [msg], [Get] does not
    return [msg]: it panics at the type assertion of line 267.  The rest
    of the claim holds: [dbs] is as it was, no call stays in flight for
    the name, and the next [Get] for the name invokes [gorm.Open] again. *)
Theorem Get_open_failure_panics name dsn s msg :
  dbs s !! name = None -> sfg s !! name = None ->
  open_err (opens s) dsn = Some msg ->
  (Get open_err name dsn s).2 = Some Panicked /\
  (Get open_err name dsn s).2 <> Some (Returned None (Some msg)) /\
  dbs (Get open_err name dsn s).1 = dbs s /\
  sfg (Get open_err name dsn s).1 !! name = None /\
  opens (Get open_err name dsn s).1 = S (opens s) /\
  (forall dsn',
     opens (Get open_err name dsn' (Get open_err name dsn s).1).1 = S (S (opens s))).
Proof.
  intros Hmiss Hsfg Hopen.
  rewrite (Get_miss_fail _ _ _ _ Hmiss Hsfg Hopen); cbn [fst snd dbs sfg opens].
  repeat split; try done.
  intros dsn'.
  destruct (open_err (S (opens s)) dsn') as [msg'|] eqn:Hnext.
  - by rewrite (Get_miss_fail _ dsn' _ msg').
  - by rewrite (Get_miss_ok _ dsn').
Qed.

Lemma Get_times_hit n name dsn s h :
  dbs s !! name = Some h ->
  exists gs,
    Get_times open_err n name dsn s =
    ({| dbs := dbs s; sfg := sfg s; calls := calls s; opens := opens s;
        conns := conns s; goroutines := goroutines s ++ gs |},
     replicate n (Some (Returned (Some h) None))).
Proof.
  revert s; induction n as [|n IH]; intros s Hhit; cbn [Get_times].
  - exists []. rewrite app_nil_r. by destruct s.
  - rewrite (Get_hit _ dsn _ _ Hhit).
    edestruct IH as [gs ->]; [exact Hhit|].
    cbn [dbs sfg calls opens conns goroutines].
    eexists. rewrite <- app_assoc. reflexivity.
Qed.

(** C5.  When a name is in [dbs] with handle [h], every one of any
    number of later [Get] calls for it returns [h] and no error in its
    first step; [gorm.Open] is not invoked and [dbs], the single-flight
    group and the connections stay as they were, whatever the group
    holds.  A goroutine at the entry of [Get] returns [h] at its next
    step in any interleaving. *)
Theorem Get_cached_never_opens n name dsn s h :
  dbs s !! name = Some h ->
  (Get_times open_err n name dsn s).2 = replicate n (Some (Returned (Some h) None)) /\
  opens (Get_times open_err n name dsn s).1 = opens s /\
  dbs (Get_times open_err n name dsn s).1 = dbs s /\
  sfg (Get_times open_err n name dsn s).1 = sfg s /\
  calls (Get_times open_err n name dsn s).1 = calls s /\
  conns (Get_times open_err n name dsn s).1 = conns s /\
  (forall t g, goroutines s !! t = Some g -> g_pc g = Enter -> g_name g = name ->
     step open_err t s =
     Some (set_goroutine t (at_pc (assign g (Some h) (g_err g))
                                  (Returned (Some h) (g_err g))) s)).
Proof.
  intros Hhit.
  destruct (Get_times_hit n name dsn s h Hhit) as [gs ->]; cbn [fst snd].
  repeat split; try done.
  intros t g Hg Hpc Hname. unfold step. by rewrite Hg, Hpc, Hname, Hhit.
Qed.

End RegistryProperties.

Section Interleavings.
Import Registry Scenarios.

(** When all ten goroutines enter the group while the first call is in
    flight, [gorm.Open] is invoked once and all ten return handle 0. *)
Example joined_goroutines_share_one_open :
  (fun s => (opens s, g_pc <$> goroutines s)) <$>
    run open_ok joined_schedule (launch 10 "main" "dsn")
  = Some (1, replicate 10 (Returned (Some 0) None)).
Proof. vm_compute. reflexivity. Qed.

(** C1 fails on the code.  Ten goroutines call [Get] with the same unseen
    name.  On [late_schedule], where nine of them reach the single-flight
    group after the call of the first has ended, [gorm.Open] is invoked
    twice and the callers end with two different handles.  On
    [joined_schedule_failing], where [gorm.Open] fails, none of the ten
    returns the error: all panic. *)
Theorem late_goroutine_opens_again :
  (fun s => (opens s, g_pc <$> goroutines s, dbs s !! "main")) <$>
    run open_ok late_schedule (launch 10 "main" "dsn")
  = Some (2, Returned (Some 0) None :: replicate 9 (Returned (Some 1) None), Some 1) /\
  (fun s => (opens s, g_pc <$> goroutines s)) <$>
    run open_refused joined_schedule_failing (launch 10 "main" "dsn")
  = Some (1, replicate 10 Panicked).
Proof. split; vm_compute; reflexivity. Qed.

End Interleavings.

(** * The properties on concrete inputs *)

Section Instances.
Import Vocabulary MyError World Plugin Registry Props Scenarios.

(** C7, as the specification has it, fails: on a query whose instance
    store is empty, with the clock at the start of 2024, the line that
    the after hook logs does not report a zero duration (it reports the
    largest [Duration]). *)
Lemma zero_duration_refuted :
  InstanceGet select_user "start_time" w0 = None /\
  InstanceGet select_user "span" w0 = None /\
  lg_cost <$> w_log (@after semconv plugin_default (Some db_query) w0)
    = [Time.maxDuration] /\
  ~ (exists l, l ∈ w_log (@after semconv plugin_default (Some db_query) w0) /\
               lg_cost l = 0%Z).
Proof.
  split; [reflexivity|]. split; [reflexivity|]. split; [vm_compute; reflexivity|].
  intros (l & Hin & Hcost). vm_compute in Hin.
  apply list_elem_of_singleton in Hin. subst l. discriminate Hcost.
Qed.

(** C6 on a handle without a statement. *)
Lemma hooks_skip_absent_context_witness :
  context_of (Some db_no_statement) = None /\
  @injectBefore semconv plugin_default (Some db_no_statement) "query" w0 = w0 /\
  @extractAfter semconv plugin_default (Some db_no_statement) w0 = w0 /\
  (forall k, @before_hook semconv k plugin_default (Some db_no_statement) w0 = w0) /\
  @after semconv plugin_default (Some db_no_statement) w0 = w0.
Proof.
  split; [reflexivity|].
  apply (@hooks_skip_absent_context semconv plugin_default
           (Some db_no_statement) "query" w0).
  reflexivity.
Defined.

(** C7 (amended) on a query whose instance store is empty. *)
Lemma after_without_before_witness :
  db_Statement db_query = Some select_user /\ Context select_user = Some 5 /\
  InstanceGet select_user "start_time" w0 = None /\
  InstanceGet select_user "span" w0 = None /\
  w_log (@after semconv plugin_default (Some db_query) w0) =
    w_log w0 ++
      [{| lg_ctx := 5; lg_name := DB_Name db_query;
          lg_cost := Z.max Time.minDuration (Z.min Time.maxDuration (w_now w0));
          lg_sql := Explain (db_Dialector db_query) (SQL select_user) (Vars select_user) |}].
Proof.
  repeat (split; [reflexivity|]).
  apply (@after_without_before semconv plugin_default db_query select_user 5 w0);
    reflexivity.
Defined.

(** C9 on the before hook of a query. *)
Lemma before_starts_span_and_stores_state_witness :
  db_Statement db_query = Some select_user /\ Context select_user = Some 5 /\
  w_spans (@before_hook semconv Query plugin_default (Some db_query) w0) =
    w_spans w0 ++
      [{| sp_provider := w_provider w0; sp_tracer := "MySQL-Operation";
          sp_name := configured_name Query (opt plugin_default);
          sp_attrs := [@DBSystemValue semconv;
                       Key_String (@DBNameKey semconv) (DB_Name db_query)];
          sp_errors := []; sp_status := None; sp_ended := false |}].
Proof.
  repeat (split; [reflexivity|]).
  apply (@before_starts_span_and_stores_state semconv Query plugin_default
           db_query select_user 5 w0); reflexivity.
Defined.

(** C10 on the default plugin and one that differs from it in the three
    options. *)
Lemma hooks_ignore_logging_and_tracer_options_witness :
  same_but_logging_and_tracer (opt plugin_default) (opt plugin_verbose) /\
  tracer (opt plugin_default) <> tracer (opt plugin_verbose) /\
  logResult (opt plugin_default) <> logResult (opt plugin_verbose) /\
  logSqlParameters (opt plugin_default) <> logSqlParameters (opt plugin_verbose) /\
  (forall k db w, @before_hook semconv k plugin_default db w
                  = @before_hook semconv k plugin_verbose db w) /\
  (forall db w, @after semconv plugin_default db w = @after semconv plugin_verbose db w).
Proof.
  split; [repeat split|].
  split; [discriminate|]. split; [discriminate|]. split; [discriminate|].
  split;
    apply (@hooks_ignore_logging_and_tracer_options semconv
             plugin_default plugin_verbose);
    repeat split.
Defined.

Lemma once_activates (r : registration) (db db' : name_table) :
  register_once r db = (db', None) -> reg_name r ∈ db'.
Proof.
  unfold register_once. destruct (decide (reg_name r ∈ db)); [discriminate|].
  intros [= <-]. apply elem_of_app. right. by apply list_elem_of_singleton.
Qed.

Lemma once_keeps (r : registration) (db : name_table) (n : string) :
  n ∈ db -> n ∈ (register_once r db).1.
Proof.
  unfold register_once. destruct (decide (reg_name r ∈ db)); simpl; [done|].
  intros Hn. apply elem_of_app. by left.
Qed.


(** C2 on an empty registry and a server that refuses the connection. *)
Lemma Get_open_failure_panics_witness :
  dbs (launch 0 "" "") !! "main" = None /\
  sfg (launch 0 "" "") !! "main" = None /\
  open_refused (opens (launch 0 "" "")) "dsn"
    = Some "dial tcp 127.0.0.1:3306: connect: connection refused" /\
  (Get open_refused "main" "dsn" (launch 0 "" "")).2 = Some Panicked.
Proof.
  repeat (split; [reflexivity|]).
  apply (Get_open_failure_panics open_refused "main" "dsn" (launch 0 "" "")
           "dial tcp 127.0.0.1:3306: connect: connection refused");
    reflexivity.
Defined.

(** C5 on three calls after the one that cached the name, with a server
    that by then refuses every connection. *)
Lemma Get_cached_never_opens_witness :
  dbs (Get open_ok "main" "dsn" (launch 0 "" "")).1 !! "main" = Some 0 /\
  (Get_times open_refused 3 "main" "dsn"
     (Get open_ok "main" "dsn" (launch 0 "" "")).1).2
    = replicate 3 (Some (Returned (Some 0) None)) /\
  opens (Get_times open_refused 3 "main" "dsn"
           (Get open_ok "main" "dsn" (launch 0 "" "")).1).1 = 1.
Proof.
  split; [vm_compute; reflexivity|].
  pose proof (Get_cached_never_opens open_refused 3 "main" "dsn"
                (Get open_ok "main" "dsn" (launch 0 "" "")).1 0
                ltac:(vm_compute; reflexivity)) as (Hres & Hopens & _).
  split; [exact Hres|]. rewrite Hopens. vm_compute. reflexivity.
Defined.

End Instances.

(** * Further properties: attribute keys, options, installation *)

Section KeyProperties.
Import Keys.

(** X1.  [keyWithPrefix] maps different keys to different strings, every
    result starts with [gorm.otel.], none collides with [spanKey] or
    [_errorTagKey], and the six keys of the package are pairwise different. *)
Theorem keyWithPrefix_injective (a b : string) :
  (keyWithPrefix a = keyWithPrefix b <-> a = b) /\
  String.prefix (_prefix +:+ ".") (keyWithPrefix a) = true /\
  keyWithPrefix a <> spanKey /\ keyWithPrefix a <> _errorTagKey /\
  NoDup [_tableTagKey; _resultLogKey; _sqlLogKey; _rowsAffectedLogKey; spanKey; _errorTagKey].
Proof.
  split; [|split; [|split; [|split]]].
  - split; [|by intros ->]. unfold keyWithPrefix, _prefix; simpl. by intros [=].
  - unfold keyWithPrefix, _prefix; simpl. by destruct a.
  - unfold keyWithPrefix, _prefix, spanKey; simpl. discriminate.
  - unfold keyWithPrefix, _prefix, _errorTagKey; simpl. discriminate.
  - apply NoDup_ListNoDup. repeat constructor; vm_compute; intuition discriminate.
Qed.
End KeyProperties.

Section OptionCalls.
Import Vocabulary World Plugin Props Calls.

Lemma apply_calls (o : options) (p : TracerProvider) (cs : list option_call) :
  tracer o = Some p ->
  logResult (apply_options o (apply_call <$> cs)) = last_logResult (logResult o) cs /\
  logSqlParameters (apply_options o (apply_call <$> cs)) = last_sqlParameters (logSqlParameters o) cs /\
  tracer (apply_options o (apply_call <$> cs)) = Some (last_tracer p cs) /\
  opt_errorTagHook (apply_options o (apply_call <$> cs)) = opt_errorTagHook o /\
  (forall k, configured_name k (apply_options o (apply_call <$> cs)) = configured_name k o).
Proof.
  revert o p; induction cs as [|c cs IH]; intros o p Ht; [by simpl|].
  rewrite fmap_cons. cbn [apply_options].
  destruct c as [b|[q|]|b]; cbn [apply_call last_logResult last_sqlParameters last_tracer].
  - destruct (IH (WithLogResult b o) p Ht) as (H1 & H2 & H3 & H4 & H5).
    repeat split; try done; intros k; rewrite H5; by destruct k.
  - destruct (IH (WithTracer (Some q) o) q eq_refl) as (H1 & H2 & H3 & H4 & H5).
    repeat split; try done; intros k; rewrite H5; by destruct k.
  - by apply IH.
  - destruct (IH (WithSqlParameters b o) p Ht) as (H1 & H2 & H3 & H4 & H5).
    repeat split; try done; intros k; rewrite H5; by destruct k.
Qed.

(** X2.  Whatever exported options [New] is given, in whatever order and
    number: [logResult] is the argument of the last [WithLogResult] (false
    without one), [logSqlParameters] that of the last [WithSqlParameters]
    (true without one), and [tracer] that of the last [WithTracer] whose
    argument is not [nil] (the process-wide provider without one). *)
Theorem New_last_call_wins (w : world) (cs : list option_call) :
  logResult (opt (New w (apply_call <$> cs))) = last_logResult false cs /\
  logSqlParameters (opt (New w (apply_call <$> cs))) = last_sqlParameters true cs /\
  tracer (opt (New w (apply_call <$> cs))) = Some (last_tracer (w_provider w) cs).
Proof.
  destruct (apply_calls (defaultOption w) (w_provider w) cs eq_refl) as (H1 & H2 & H3 & _).
  by repeat split.
Qed.

(** X3.  No sequence of exported options leaves the tracer [nil], sets the
    error-tag hook, or changes one of the six operation names: the spans
    are always named [create], [update], [query], [delete], [row], [raw]. *)
Theorem New_never_renames_nor_sets_hook (w : world) (cs : list option_call) :
  tracer (opt (New w (apply_call <$> cs))) <> None /\
  opt_errorTagHook (opt (New w (apply_call <$> cs))) = None /\
  (forall k, configured_name k (opt (New w (apply_call <$> cs))) = default_name k).
Proof.
  destruct (apply_calls (defaultOption w) (w_provider w) cs eq_refl) as (_ & _ & H3 & H4 & H5).
  split; [|split].
  - unfold New; simpl. by rewrite H3.
  - exact H4.
  - intros k. unfold New; simpl. rewrite H5. by destruct k.
Qed.

End OptionCalls.

Section Uniform.
Import Vocabulary MyError World Plugin Props Calls.
Context `{Util} {C : Type} `{Callbacks C}.

(** X4.  The twelve registrations of [Initialize] follow one rule: for each
    kind, in the order create, update, query, delete, row, raw, the before
    hook of that kind under [otel:before_<kind>] before [gorm:<kind>] on
    the processor of that kind, then the after hook under
    [otel:after_<kind>] after [gorm:<kind>]; the twelve names are pairwise
    different. *)
Theorem installations_uniform (op : OpentracingPlugin) (db : C) :
  installations op =
    flat_map (fun k => [before_registration op k; after_registration op k]) kinds /\
  NoDup (reg_name <$> installations op) /\
  Initialize op db =
    ((attempt_all (flat_map (fun k => [before_registration op k; after_registration op k]) kinds) db).1,
     toError (add_all {| errs := [] |}
       (attempt_all (flat_map (fun k => [before_registration op k; after_registration op k]) kinds) db).2)).
Proof.
  split; [reflexivity|]. split.
  - apply NoDup_ListNoDup. repeat constructor; vm_compute; intuition discriminate.
  - apply Initialize_attempt_all.
Qed.
End Uniform.

(** * Further properties of the hooks *)

Section HookComposition.
Import Vocabulary World Plugin Props Calls.
Context `{Util}.

Lemma Sub_exact (t u : Time.Time) :
  (u <= t)%Z -> (t - u <= Time.maxDuration)%Z -> Time.Sub t u = (t - u)%Z.
Proof.
  unfold Time.Sub, Time.maxDuration, Time.minDuration. intros Hle Hfit.
  destruct (Z.ltb_spec (2 ^ 63 - 1) (t - u)); [unfold Time.maxDuration in Hfit; lia|].
  destruct (Z.ltb_spec (t - u) (- 2 ^ 63)); lia.
Qed.

(** What [extractAfter] does when the execution context is there and the
    store holds a span and a start time. *)
Lemma extractAfter_paired op d stmt ctx w t0 sp :
  db_Statement d = Some stmt -> Context stmt = Some ctx ->
  InstanceGet stmt "start_time" w = Some (VTime t0) ->
  InstanceGet stmt "span" w = Some (VSpan sp) ->
  extractAfter op (Some d) w =
  Debugf {| lg_ctx := ctx; lg_name := DB_Name d;
            lg_cost := Time.Since (w_now w) t0;
            lg_sql := Explain (db_Dialector d) (SQL stmt) (Vars stmt) |}
    (World.End sp (SetAttributes sp
       (Key_String DBStatementKey (Explain (db_Dialector d) (SQL stmt) (Vars stmt))) w)).
Proof.
  intros Hs Hc Ht Hsp. unfold extractAfter. by rewrite Hs, Hc, Ht, Hsp.
Qed.

(** X5.  A before hook followed by the after hook on the same statement,
    the clock having moved from [w_now w] to [now'] in between: the one
    span that was started carries the three attributes, the last being
    the SQL that is logged, and is ended; one line is logged, and its
    duration is exactly [now' - w_now w]. *)
Theorem before_then_after k op d stmt ctx w now' :
  db_Statement d = Some stmt -> Context stmt = Some ctx ->
  (w_now w <= now')%Z -> (now' - w_now w <= Time.maxDuration)%Z ->
  w_spans (after op (Some d) (set_now now' (before_hook k op (Some d) w))) =
    w_spans w ++
      [{| sp_provider := w_provider w; sp_tracer := "MySQL-Operation";
          sp_name := configured_name k (opt op);
          sp_attrs := [DBSystemValue; Key_String DBNameKey (DB_Name d);
                       Key_String DBStatementKey
                         (Explain (db_Dialector d) (SQL stmt) (Vars stmt))];
          sp_errors := []; sp_status := None; sp_ended := true |}] /\
  w_log (after op (Some d) (set_now now' (before_hook k op (Some d) w))) =
    w_log w ++
      [{| lg_ctx := ctx; lg_name := DB_Name d;
          lg_cost := (now' - w_now w)%Z;
          lg_sql := Explain (db_Dialector d) (SQL stmt) (Vars stmt) |}].
Proof.
  intros Hs Hc Hle Hfit. rewrite before_hook_unfold.
  rewrite (injectBefore_present _ _ _ _ _ _ Hs Hc). unfold after.
  erewrite extractAfter_paired; [|exact Hs|exact Hc| |].
  2: { unfold InstanceGet, set_now; cbn [w_settings].
       rewrite lookup_insert_ne by (intros [=]). apply lookup_insert_eq. }
  2: { unfold InstanceGet, set_now; cbn [w_settings]. apply lookup_insert_eq. }
  unfold Debugf, World.End, SetAttributes, with_span, set_now; cbn [w_spans w_log w_now].
  rewrite !alter_last. cbn. unfold Time.Since. by rewrite Sub_exact.
Qed.

Lemma fmap_alter_same {A B} (f : A -> B) (g : A -> A) (i : nat) (l : list A) :
  (forall x, f (g x) = f x) -> f <$> alter g i l = f <$> l.
Proof.
  intros Hfg. revert i; induction l as [|x l IH]; intros [|i]; simpl; try done.
  - by rewrite Hfg.
  - f_equal. apply IH.
Qed.

(** X6.  The after hook never writes the instance store, never starts a
    span or renames one, never moves the clock, and never rewrites the
    log: it appends one line when the execution context is there and none
    otherwise.  What the before hook stored is still stored afterwards. *)
Theorem after_never_writes_state op db w :
  w_settings (extractAfter op db w) = w_settings w /\
  length (w_spans (extractAfter op db w)) = length (w_spans w) /\
  sp_name <$> w_spans (extractAfter op db w) = sp_name <$> w_spans w /\
  w_now (extractAfter op db w) = w_now w /\
  take (length (w_log w)) (w_log (extractAfter op db w)) = w_log w /\
  length (w_log (extractAfter op db w)) =
    length (w_log w) + (if context_of db is Some _ then 1 else 0).
Proof.
  destruct db as [d|]; [|simpl; rewrite firstn_all, Nat.add_0_r; done].
  destruct (db_Statement d) as [stmt|] eqn:Hs;
    [|unfold extractAfter, context_of; rewrite Hs; rewrite firstn_all, Nat.add_0_r; done].
  destruct (Context stmt) as [ctx|] eqn:Hc;
    [|unfold extractAfter, context_of; rewrite Hs, Hc; rewrite firstn_all, Nat.add_0_r; done].
  unfold extractAfter, context_of. rewrite Hs, Hc.
  destruct (InstanceGet stmt "span" w) as [[t|s|x]|];
    unfold Debugf, World.End, SetAttributes, with_span;
    cbn [w_settings w_spans w_now w_log];
    rewrite ?length_alter, ?length_app, ?take_app_length; repeat split; try done.
  by rewrite !fmap_alter_same.
Qed.

End HookComposition.

(** * Further properties of the registry *)

Section Invariant.
Import Registry Reach.
Variable open_err : nat -> string -> error.

Lemma inv_update s s' t g g' :
  inv s -> goroutines s !! t = Some g ->
  goroutines s' = <[t := g']> (goroutines s) ->
  (forall t0 g0, t0 <> t -> goroutines s !! t0 = Some g0 -> good s g0 -> good s' g0) ->
  good s' g' ->
  (forall c, leads g' = Some c ->
     leads g = Some c \/
     (forall t0 g0, goroutines s !! t0 = Some g0 -> leads g0 <> Some c)) ->
  (forall name h, dbs s' !! name = Some h -> installed s' h) ->
  (forall c cl, calls s' !! c = Some cl ->
     if done cl then forall h, val cl = Some h -> installed s' h
     else leads g' = Some c \/
          exists t0 g0, t0 <> t /\ goroutines s !! t0 = Some g0 /\ leads g0 = Some c) ->
  (forall name c, sfg s' !! name = Some c -> c < length (calls s')) ->
  inv s'.
Proof.
  intros [Hgood Hlead Hdbs Hcalls Hsfg] Hg Hgs Hframe Hg' Hl' Hdbs' Hcalls' Hsfg'.
  assert (Hlt : t < length (goroutines s)) by (by eapply lookup_lt_Some).
  split.
  - intros t0 g0. rewrite Hgs. intros [(<- & <- & _)|(Hne & H0)]%list_lookup_insert_Some; [done|].
    apply (Hframe t0); eauto.
  - intros t1 t2 g1 g2 c. rewrite Hgs.
    intros [(<- & <- & _)|(Hne1 & H1)]%list_lookup_insert_Some
           [(<- & <- & _)|(Hne2 & H2)]%list_lookup_insert_Some L1 L2; try done.
    + destruct (Hl' c L1) as [Hold|Hfresh].
      * exfalso. apply Hne2. by eapply (Hlead t t2).
      * by destruct (Hfresh t2 g2 H2).
    + destruct (Hl' c L2) as [Hold|Hfresh].
      * exfalso. apply Hne1. by eapply (Hlead t t1).
      * by destruct (Hfresh t1 g1 H1).
    + by eapply Hlead.
  - exact Hdbs'.
  - intros c cl Hc. specialize (Hcalls' c cl Hc). destruct (done cl); [done|].
    rewrite Hgs. destruct Hcalls' as [Hl|(t0 & g0 & Hne & H0 & Hl)].
    + exists t, g'. split; [|done]. by apply list_lookup_insert_eq.
    + exists t0, g0. split; [|done]. by rewrite list_lookup_insert_ne.
  - exact Hsfg'.
Qed.

Lemma good_ext s s' g :
  sfg s' = sfg s -> calls s' = calls s -> conns s' = conns s ->
  good s g -> good s' g.
Proof.
  intros Hsfg Hcalls Hconns. unfold good, in_flight, installed.
  by rewrite Hsfg, Hcalls, Hconns.
Qed.

Lemma installed_ext s s' h : conns s' = conns s -> installed s h -> installed s' h.
Proof. unfold installed. by intros ->. Qed.

Lemma installed_grow s s' h cn :
  conns s' = conns s ++ [cn] -> installed s h -> installed s' h.
Proof.
  unfold installed. intros -> (c0 & Hc & Hu). exists c0. split; [|done].
  by apply lookup_app_l_Some.
Qed.


Lemma leads_in_flight s g c :
  good s g -> leads g = Some c -> in_flight s (g_name g) c.
Proof.
  unfold good, leads. destruct (g_pc g) as [| |c'|c' h|c' [h|] e|c'|v|db e|];
    intros Hg [=]; subst; tauto.
Qed.

Lemma good_grow s s' g cn :
  sfg s' = sfg s -> calls s' = calls s -> conns s' = conns s ++ [cn] ->
  good s g -> good s' g.
Proof.
  intros Hsfg Hcalls Hconns. unfold good, in_flight. rewrite Hsfg, Hcalls.
  pose proof (fun h => installed_grow s s' h cn Hconns) as Hi.
  destruct (g_pc g) as [| |c'|c' h|c' [h|] e|c'|[h|]|db e|]; try tauto.
  - intros (? & ? & ?); eauto.
  - intros (? & ? & ?); eauto.
  - intros (? & ?); eauto.
  - intros (? & h & ? & ?); eauto.
Qed.

Lemma good_new_call s s' g name cl :
  sfg s !! name = None ->
  sfg s' = <[name := length (calls s)]> (sfg s) ->
  calls s' = calls s ++ [cl] -> conns s' = conns s ->
  good s g -> good s' g.
Proof.
  intros Hnone Hsfg Hcalls Hconns.
  assert (Hfl : forall n c, in_flight s n c -> in_flight s' n c).
  { intros n c (Hn & cl0 & Hc & Hd). split.
    - rewrite Hsfg, lookup_insert_ne; [done|]. intros <-. congruence.
    - exists cl0. split; [|done]. rewrite Hcalls. by apply lookup_app_l_Some. }
  pose proof (fun h => installed_ext s s' h Hconns) as Hi.
  unfold good.
  destruct (g_pc g) as [| |c'|c' h|c' [h|] e|c'|[h|]|db e|]; try tauto.
  - intros (? & ?); eauto.
  - intros (? & ? & ?); eauto.
  - intros (? & ? & ?); eauto.
  - apply Hfl.
  - intros (? & ?). split; [done|]. rewrite Hcalls, length_app. lia.
  - intros (? & ?); eauto.
  - intros (? & h & ? & ?); eauto.
Qed.

Lemma good_end_call s s' g name c cl :
  sfg s !! name = Some c ->
  sfg s' = delete name (sfg s) ->
  calls s' = <[c := cl]> (calls s) -> conns s' = conns s ->
  leads g <> Some c ->
  good s g -> good s' g.
Proof.
  intros Hname Hsfg Hcalls Hconns Hnl.
  assert (Hfl : forall n c0, c0 <> c -> in_flight s n c0 -> in_flight s' n c0).
  { intros n c0 Hne (Hn & cl0 & Hc & Hd). split.
    - rewrite Hsfg, lookup_delete_ne; [done|]. intros <-. congruence.
    - exists cl0. split; [|done]. rewrite Hcalls. by rewrite list_lookup_insert_ne. }
  pose proof (fun h => installed_ext s s' h Hconns) as Hi.
  unfold good. unfold leads in Hnl.
  destruct (g_pc g) as [| |c'|c' h|c' [h|] e|c'|[h|]|db e|]; try tauto.
  - intros (? & ?). split; [done|]. apply Hfl; [congruence|done].
  - intros (? & ? & ?). split; [done|]. split; [apply Hfl; [congruence|done]|eauto].
  - intros (? & ? & ?). split; [done|]. split; [apply Hfl; [congruence|done]|eauto].
  - intros ?. apply Hfl; [congruence|done].
  - intros (? & ?). split; [done|]. by rewrite Hcalls, length_insert.
  - intros (? & ?); eauto.
  - intros (? & h & ? & ?); eauto.
Qed.

Lemma calls_kept s s' t g g' :
  inv s -> goroutines s !! t = Some g -> calls s' = calls s ->
  (forall h, installed s h -> installed s' h) ->
  (forall c, leads g = Some c -> leads g' = Some c) ->
  forall c cl, calls s' !! c = Some cl ->
    if done cl then forall h, val cl = Some h -> installed s' h
    else leads g' = Some c \/
         exists t0 g0, t0 <> t /\ goroutines s !! t0 = Some g0 /\ leads g0 = Some c.
Proof.
  intros [_ _ _ Hcalls _] Hg Heq Hi Hl c cl. rewrite Heq. intros Hc.
  specialize (Hcalls c cl Hc). destruct (done cl).
  - intros h Hh. eauto.
  - destruct Hcalls as (t0 & g0 & H0 & Hl0).
    destruct (decide (t0 = t)) as [->|Hne].
    + left. apply Hl. congruence.
    + right. eauto.
Qed.

Lemma step_inv t s s' : inv s -> step open_err t s = Some s' -> inv s'.
Proof.
  intros Hinv Hstep. pose proof Hinv as [Hgood Hlead Hdbs Hcalls Hsfg].
  unfold step in Hstep.
  destruct (goroutines s !! t) as [g|] eqn:Hg; [|done].
  pose proof (Hgood t g Hg) as Hgg. unfold good in Hgg.
  destruct (g_pc g) as [| |c|c h|c v e|c|v|db e|] eqn:Hpc; try done.
  - (* Enter *)
    destruct (dbs s !! g_name g) as [v|] eqn:Hv; injection Hstep as <-;
      (eapply (inv_update s _ t g); [exact Hinv|exact Hg|reflexivity| | | | | |];
       [ intros t0 g0 _ _; by apply good_ext
       | simpl; unfold good; simpl; eauto
       | by intros c [=]
       | done
       | eapply (calls_kept s _ t g); [done..|by intros h; apply installed_ext|unfold leads; rewrite Hpc; by intros c [=]]
       | done ]).
  - (* Miss *)
    destruct (sfg s !! g_name g) as [c|] eqn:Hc; injection Hstep as <-.
    + eapply (inv_update s _ t g); [exact Hinv|exact Hg|reflexivity| | | | | |].
      * intros t0 g0 _ _; by apply good_ext.
      * simpl. unfold good; simpl; eauto.
      * by intros c0 [=].
      * done.
      * eapply (calls_kept s _ t g); [done..|by intros h; apply installed_ext|unfold leads; rewrite Hpc; by intros c0 [=]].
      * done.
    + eapply (inv_update s _ t g); [exact Hinv|exact Hg|reflexivity| | | | | |].
      * intros t0 g0 _ _. by eapply good_new_call.
      * simpl. unfold good, in_flight; simpl. split; [done|]. split.
        -- apply lookup_insert_eq.
        -- eexists. split; [by apply list_lookup_middle|done].
      * simpl. intros c [= <-]. right. intros t0 g0 H0 Hl.
        destruct (leads_in_flight s g0 _ (Hgood _ _ H0) Hl) as (_ & cl & Hcl & _).
        apply lookup_lt_Some in Hcl. lia.
      * done.
      * simpl. intros c cl [Hold|(Hle & Hnew)]%lookup_app_Some.
        -- specialize (Hcalls c cl Hold). destruct (done cl); [done|].
           destruct Hcalls as (t0 & g0 & H0 & Hl). right. exists t0, g0.
           split; [|done]. intros ->. rewrite Hg in H0. injection H0 as <-.
           unfold leads in Hl. by rewrite Hpc in Hl.
        -- apply list_lookup_singleton_Some in Hnew as (Hz & <-). simpl. left.
           unfold leads; simpl. f_equal. lia.
      * simpl. intros name c [(<- & <-)|(Hne & Hold)]%lookup_insert_Some;
          rewrite length_app; simpl; [lia|]. specialize (Hsfg _ _ Hold). lia.
  - (* Opening *)
    destruct Hgg as (Herr & Hfl).
    destruct (open_err (opens s) (g_dsn g)) as [e|]; injection Hstep as <-.
    + eapply (inv_update s _ t g); [exact Hinv|exact Hg|reflexivity| | | | | |].
      * intros t0 g0 _ _; by apply good_ext.
      * simpl. unfold good; simpl. done.
      * simpl. intros c0 [= <-]. left. unfold leads. by rewrite Hpc.
      * done.
      * eapply (calls_kept s _ t g); [done..|by intros h0; apply installed_ext|].
        unfold leads; rewrite Hpc; simpl. done.
      * done.
    + eapply (inv_update s _ t g); [exact Hinv|exact Hg|reflexivity| | | | | |].
      * intros t0 g0 _ _. by eapply good_grow.
      * simpl. unfold good; simpl. split; [done|]. split; [done|].
        eexists. split; [by apply list_lookup_middle|done].
      * simpl. intros c0 [= <-]. left. unfold leads. by rewrite Hpc.
      * simpl. intros name h Hh. eapply installed_grow; [|by eapply Hdbs]. done.
      * eapply (calls_kept s _ t g); [done..| |].
        -- intros h. by eapply installed_grow.
        -- unfold leads; rewrite Hpc; simpl. done.
      * done.
  - (* Publish *)
    destruct Hgg as (Herr & Hfl & Hi). injection Hstep as <-.
    eapply (inv_update s _ t g); [exact Hinv|exact Hg|reflexivity| | | | | |].
    + intros t0 g0 _ _; by apply good_ext.
    + simpl. unfold good; simpl. done.
    + simpl. intros c0 [= <-]. left. unfold leads. by rewrite Hpc.
    + simpl. intros name h0 [(<- & <-)|(Hne & Hold)]%lookup_insert_Some; [done|by eapply Hdbs].
    + eapply (calls_kept s _ t g); [done..|by intros h0; apply installed_ext|].
      unfold leads; rewrite Hpc; simpl. done.
    + done.
  - (* Cleanup *)
    injection Hstep as <-.
    assert (Hfl : in_flight s (g_name g) c) by (destruct v; tauto).
    assert (Hlg : leads g = Some c) by (unfold leads; by rewrite Hpc).
    eapply (inv_update s _ t g); [exact Hinv|exact Hg|reflexivity| | | | | |].
    + simpl. intros t0 g0 Hne H0. eapply good_end_call; [apply Hfl|done..|].
      intros Hl0. apply Hne. by eapply (Hlead t0 t).
    + simpl. unfold good; simpl. destruct v; [|done]. destruct Hgg as (? & ? & ?). done.
    + by intros c0 [=].
    + done.
    + simpl. intros c0 cl [(<- & <- & _)|(Hne & Hold)]%list_lookup_insert_Some; simpl.
      * intros h ->. destruct Hgg as (? & ? & ?). done.
      * specialize (Hcalls c0 cl Hold). destruct (done cl); [done|].
        destruct Hcalls as (t0 & g0 & H0 & Hl). right. exists t0, g0.
        split; [|done]. intros ->. congruence.
    + simpl. intros name c0 [_ Hold]%lookup_delete_Some. rewrite length_insert. eauto.
  - (* Wait *)
    destruct (calls s !! c) as [cl|] eqn:Hcl; [|done].
    destruct (done cl) eqn:Hd; [|done]. injection Hstep as <-.
    specialize (Hcalls c cl Hcl). rewrite Hd in Hcalls.
    eapply (inv_update s _ t g); [exact Hinv|exact Hg|reflexivity| | | | | |].
    + intros t0 g0 _ _; by apply good_ext.
    + simpl. unfold good; simpl. destruct (val cl) as [h|]; [|done]. split; [tauto|eauto].
    + by intros c0 [=].
    + done.
    + eapply (calls_kept s _ t g); [done..|by intros h; apply installed_ext|unfold leads; rewrite Hpc; by intros c0 [=]].
    + done.
  - (* Return *)
    destruct v as [h|]; injection Hstep as <-;
      (eapply (inv_update s _ t g); [exact Hinv|exact Hg|reflexivity| | | | | |];
       [ intros t0 g0 _ _; by apply good_ext
       | simpl; unfold good; simpl; try done
       | by intros c [=]
       | done
       | eapply (calls_kept s _ t g); [done..|by intros h0; apply installed_ext|unfold leads; rewrite Hpc; by intros c [=]]
       | done ]).
    destruct Hgg. eauto.
Qed.

Lemma spawn_inv name dsn s : inv s -> inv (spawn name dsn s).2.
Proof.
  intros [Hgood Hlead Hdbs Hcalls Hsfg]. unfold spawn; simpl.
  assert (Hfresh : forall t g,
    (goroutines s ++ [{| g_name := name; g_dsn := dsn; g_db := None; g_err := None;
                         g_pc := Enter |}]) !! t = Some g ->
    goroutines s !! t = Some g \/ (leads g = None /\ g_pc g = Enter /\ g_err g = None)).
  { intros t g [Hold|(_ & Hnew)]%lookup_app_Some; [by left|right].
    apply list_lookup_singleton_Some in Hnew as (_ & <-). done. }
  split; simpl.
  - intros t g [Hold|(_ & Hpc & Herr)]%Hfresh.
    + eapply good_ext; [..|by eapply Hgood]; done.
    + unfold good. by rewrite Hpc.
  - intros t1 t2 g1 g2 c [H1|(H1 & _)]%Hfresh [H2|(H2 & _)]%Hfresh L1 L2; try congruence.
    by eapply Hlead.
  - done.
  - intros c cl Hc. specialize (Hcalls c cl Hc). destruct (done cl); [done|].
    destruct Hcalls as (t & g & Ht & Hl). exists t, g. split; [|done].
    by apply lookup_app_l_Some.
  - done.
Qed.

Lemma reachable_inv s : reachable open_err s -> inv s.
Proof.
  induction 1 as [|s name dsn _ IH|s t s' _ IH Hstep].
  - split; simpl; try done.
  - by apply spawn_inv.
  - by eapply step_inv.
Qed.


(** ** What holds in every state the registry can reach *)

(** X12.  In every reachable state, a call of [Get] that has returned has
    returned a [nil] error and a handle that is not [nil], behind which
    there is a connection that the plugin was given to. *)
Theorem Get_never_returns_error s t g db e :
  reachable open_err s -> goroutines s !! t = Some g ->
  g_pc g = Returned db e ->
  e = None /\ exists h, db = Some h /\ installed s h.
Proof.
  intros Hr Hg Hpc. pose proof (inv_good s (reachable_inv s Hr) t g Hg) as Hgood.
  unfold good in Hgood. by rewrite Hpc in Hgood.
Qed.


(** X14.  In every reachable state, two goroutines that are inside the
    function given to [sfg.Do] (or in the cleanup of [Do]) for the same
    name are one goroutine: at most one initialization is in flight per
    name. *)
Theorem one_leader_per_name s t1 t2 g1 g2 c1 c2 :
  reachable open_err s ->
  goroutines s !! t1 = Some g1 -> goroutines s !! t2 = Some g2 ->
  leads g1 = Some c1 -> leads g2 = Some c2 -> g_name g1 = g_name g2 ->
  t1 = t2.
Proof.
  intros Hr H1 H2 L1 L2 Hname. pose proof (reachable_inv s Hr) as Hinv.
  destruct (leads_in_flight s g1 c1 (inv_good s Hinv _ _ H1) L1) as (Hs1 & _).
  destruct (leads_in_flight s g2 c2 (inv_good s Hinv _ _ H2) L2) as (Hs2 & _).
  rewrite Hname in Hs1. assert (c1 = c2) as -> by congruence.
  by eapply (inv_leader s Hinv t1 t2).
Qed.

Lemma leader_steps s t g c :
  goroutines s !! t = Some g -> leads g = Some c -> is_Some (step open_err t s).
Proof.
  intros Hg Hl. unfold step. rewrite Hg. unfold leads in Hl.
  destruct (g_pc g) as [| |c'|c' h|c' v e|c'|v|db e|]; try done.
  destruct (open_err (opens s) (g_dsn g)); done.
Qed.

(** X15.  In every reachable state, a goroutine whose [Get] has not ended
    can step, or it waits for a call whose leader, another goroutine, can
    step. *)
Theorem no_deadlock s t g :
  reachable open_err s -> goroutines s !! t = Some g -> finished g = false ->
  is_Some (step open_err t s) \/
  exists c t', g_pc g = Wait c /\ t' <> t /\ is_Some (step open_err t' s).
Proof.
  intros Hr Hg Hfin. pose proof (reachable_inv s Hr) as Hinv.
  pose proof (inv_good s Hinv t g Hg) as Hgood. unfold good in Hgood.
  unfold finished in Hfin. unfold step at 1. rewrite Hg.
  destruct (g_pc g) as [| |c|c h|c v e|c|v|db e|] eqn:Hpc; try done.
  - left. by destruct (dbs s !! g_name g).
  - left. by destruct (sfg s !! g_name g).
  - left. by destruct (open_err (opens s) (g_dsn g)).
  - by left.
  - by left.
  - destruct Hgood as (_ & Hlt). apply lookup_lt_is_Some in Hlt as [cl Hcl].
    rewrite Hcl. destruct (done cl) eqn:Hd; [by left|].
    pose proof (inv_calls s Hinv c cl Hcl) as Hc. rewrite Hd in Hc.
    destruct Hc as (t' & g' & Hg' & Hl'). right. exists c, t'.
    split; [done|]. split; [|by eapply leader_steps].
    intros ->. rewrite Hg in Hg'. injection Hg' as <-.
    unfold leads in Hl'. by rewrite Hpc in Hl'.
  - left. by destruct v.
Qed.

(** X16.  A goroutine that waits for a call that has ended returns, in two
    steps, the handle of that call and a [nil] error; when the call has no
    handle (its [gorm.Open] failed) the goroutine panics.  The error of the
    call never reaches a waiter. *)
Theorem waiter_gets_result_of_its_call s t g c cl :
  reachable open_err s -> goroutines s !! t = Some g ->
  g_pc g = Wait c -> calls s !! c = Some cl -> done cl = true ->
  (fun s' => outcome t s') <$> run open_err [t; t] s =
  Some (Some match val cl with
             | Some h => Returned (Some h) None
             | None => Panicked
             end).
Proof.
  intros Hr Hg Hpc Hcl Hd.
  pose proof (inv_good s (reachable_inv s Hr) t g Hg) as Hgood.
  unfold good in Hgood. rewrite Hpc in Hgood. destruct Hgood as (Herr & Hlt).
  assert (Ht : t < length (goroutines s)) by (by eapply lookup_lt_Some).
  cbn [run]. unfold step at 1. rewrite Hg, Hpc, Hcl, Hd.
  unfold step. cbn [goroutines set_goroutine].
  rewrite list_lookup_insert_eq by done. cbn [at_pc g_pc g_err].
  destruct (val cl) as [h|]; cbn [fmap option_fmap option_map];
    unfold outcome; cbn [goroutines set_goroutine];
    rewrite list_lookup_insert_eq by (by rewrite length_insert);
    cbn; by rewrite ?Herr.
Qed.

(** ** Every call of [Get] ends *)

Lemma sum_insert (f : goroutine -> nat) (l : list goroutine) t g g' :
  l !! t = Some g ->
  sum_list (f <$> <[t := g']> l) + f g = sum_list (f <$> l) + f g'.
Proof.
  revert t; induction l as [|x l IH]; intros [|t]; try done.
  - intros [= ->]. cbn. lia.
  - intros Ht. specialize (IH t Ht).
    change (f x + sum_list (f <$> <[t := g']> l) + f g = f x + sum_list (f <$> l) + f g').
    lia.
Qed.

Lemma step_decreases t s s' :
  step open_err t s = Some s' -> total_remaining s' < total_remaining s.
Proof.
  unfold step, total_remaining.
  destruct (goroutines s !! t) as [g|] eqn:Hg; [|done].
  assert (Hkey : forall g' sh,
    goroutines sh = goroutines s -> remaining g' < remaining g ->
    sum_list (remaining <$> goroutines (set_goroutine t g' sh))
    < sum_list (remaining <$> goroutines s)).
  { intros g' sh Heq Hlt. unfold set_goroutine; cbn [goroutines]. rewrite Heq.
    pose proof (sum_insert remaining _ t g g' Hg). lia. }
  unfold remaining in Hkey.
  destruct (g_pc g) as [| |c|c h|c v e|c|v|db e|] eqn:Hpc; try done.
  - destruct (dbs s !! g_name g); intros [= <-]; apply Hkey; simpl; (done || lia).
  - destruct (sfg s !! g_name g); intros [= <-]; apply Hkey; simpl; (done || lia).
  - destruct (open_err (opens s) (g_dsn g)); intros [= <-]; apply Hkey; simpl; (done || lia).
  - intros [= <-]; apply Hkey; simpl; (done || lia).
  - intros [= <-]; apply Hkey; simpl; (done || lia).
  - destruct (calls s !! c) as [cl|]; [|done]. destruct (done cl); [|done].
    intros [= <-]; apply Hkey; simpl; (done || lia).
  - destruct v; intros [= <-]; apply Hkey; simpl; (done || lia).
Qed.

Lemma total_remaining_bound s : total_remaining s <= 6 * length (goroutines s).
Proof.
  unfold total_remaining. induction (goroutines s) as [|g l IH]; [cbn; lia|].
  assert (remaining g <= 6) by (unfold remaining; destruct (g_pc g); lia).
  change (remaining g + sum_list (remaining <$> l) <= 6 * S (length l)). lia.
Qed.


(** ** The cache only grows *)

Lemma step_keeps_cached t s s' name :
  step open_err t s = Some s' -> is_Some (dbs s !! name) -> is_Some (dbs s' !! name).
Proof.
  unfold step. destruct (goroutines s !! t) as [g|]; [|done].
  destruct (g_pc g) as [| |c|c h|c v e|c|v|db e|]; try done;
    repeat match goal with
           | |- context [match ?x with _ => _ end] => destruct x
           end;
    try done; intros [= <-]; simpl; try done.
  intros Hsome. rewrite lookup_insert. by case_decide.
Qed.

(** X18.  Along every schedule the names in [dbs] only grow: a name that is
    cached stays cached. *)
Theorem cache_never_evicts schedule s s' :
  run open_err schedule s = Some s' -> dom (dbs s) ⊆ dom (dbs s').
Proof.
  revert s; induction schedule as [|t rest IH]; intros s; simpl.
  - by intros [= ->].
  - destruct (step open_err t s) as [s1|] eqn:Hstep; [|done]. intros Hrun.
    etrans; [|by apply IH]. intros name. rewrite !elem_of_dom.
    by eapply step_keeps_cached.
Qed.

End Invariant.

(** * Further properties: degraded hooks, the accumulator, sequences of
    [Get] *)

Section MoreHooks.
Import Vocabulary World Plugin Props Calls.
Context `{Util}.

(** X7.  When the execution context is there and the store holds under
    [start_time] nothing or a value that is not a time, and under [span]
    nothing or a value that is not a span, the after hook does not fail
    and touches no span: it only logs one line, with the duration counted
    from the zero time. *)
Theorem after_ignores_wrong_types op d stmt ctx w :
  db_Statement d = Some stmt -> Context stmt = Some ctx ->
  (forall t, InstanceGet stmt "start_time" w <> Some (VTime t)) ->
  (forall sp, InstanceGet stmt "span" w <> Some (VSpan sp)) ->
  after op (Some d) w =
  Debugf {| lg_ctx := ctx; lg_name := DB_Name d;
            lg_cost := Time.Since (w_now w) Time.zero;
            lg_sql := Explain (db_Dialector d) (SQL stmt) (Vars stmt) |} w.
Proof.
  intros Hs Hc Ht Hsp. unfold after, extractAfter. rewrite Hs, Hc.
  destruct (InstanceGet stmt "start_time" w) as [[t|s|x]|];
    destruct (InstanceGet stmt "span" w) as [[t'|s'|x']|];
    try done; try (by destruct (Ht t)); by destruct (Hsp s').
Qed.

(** X8.  Two before hooks on the same statement with no after hook in
    between start two spans; the after hook ends the second one only, and
    the store still names the second: the first span is never ended. *)
Theorem second_before_leaks_first_span k op d stmt ctx w :
  db_Statement d = Some stmt -> Context stmt = Some ctx ->
  sp_ended <$> w_spans (after op (Some d)
                 (before_hook k op (Some d) (before_hook k op (Some d) w)))
  = (sp_ended <$> w_spans w) ++ [false; true] /\
  InstanceGet stmt "span"
    (after op (Some d) (before_hook k op (Some d) (before_hook k op (Some d) w)))
  = Some (VSpan (S (length (w_spans w)))).
Proof.
  intros Hs Hc. rewrite !before_hook_unfold.
  rewrite (injectBefore_present _ _ _ _ _ _ Hs Hc).
  rewrite (injectBefore_present _ _ _ _ _ _ Hs Hc). cbn [w_spans w_settings w_now w_provider w_log].
  unfold after. erewrite extractAfter_paired; [|exact Hs|exact Hc| |].
  2: { unfold InstanceGet; cbn [w_settings].
       rewrite lookup_insert_ne by (intros [=]). apply lookup_insert_eq. }
  2: { unfold InstanceGet; cbn [w_settings]. apply lookup_insert_eq. }
  unfold Debugf, World.End, SetAttributes, with_span, InstanceGet;
    cbn [w_spans w_log w_now w_settings].
  rewrite !alter_last. split.
  - rewrite !fmap_app. cbn. rewrite <- app_assoc. reflexivity.
  - rewrite lookup_insert_eq. f_equal. f_equal. rewrite length_app. simpl. lia.
Qed.


End MoreHooks.

Section MoreAccumulator.
Import Vocabulary MyError.

(** X10.  After any sequence of [add] calls, [toError] is [nil] exactly when
    the accumulator was empty before and no call carried an error; the
    number of entries grows by the number of calls that carried one. *)
Theorem toError_nil_iff (e : myError) (calls : list (operationStage * error)) :
  (toError (add_all e calls) = None <->
   errs e = [] /\ Forall (fun c => c.2 = None) calls) /\
  length (errs (add_all e calls)) =
    length (errs e) + length (filter (fun c => is_Some c.2) calls).
Proof.
  rewrite <- entries_nil. split.
  - unfold toError. rewrite add_all_errs.
    destruct (errs e), (entries calls); simpl; split; try done; by intros [? ?].
  - rewrite add_all_errs, length_app. f_equal.
    induction calls as [|[stage [msg|]] calls IH]; [done|..].
    + rewrite filter_cons_True by (simpl; eauto). cbn [entries length]. by rewrite IH.
    + rewrite filter_cons_False by (simpl; by intros [? ?]). exact IH.
Qed.

End MoreAccumulator.

Section MoreRegistry.
Import Registry Reach Props.
Variable open_err : nat -> string -> error.

(** X11.  A first [Get] for a name that is neither cached nor in flight,
    with [gorm.Open] succeeding, returns a new handle; a second [Get] for
    the name returns the same handle whatever connection string it is
    given, [gorm.Open] having been invoked once; the connection keeps the
    first connection string, and the entries of other names are as they
    were. *)
Theorem Get_then_Get name dsn dsn' s :
  dbs s !! name = None -> sfg s !! name = None ->
  open_err (opens s) dsn = None ->
  (Get open_err name dsn s).2 = Some (Returned (Some (length (conns s))) None) /\
  (Get open_err name dsn' (Get open_err name dsn s).1).2
    = Some (Returned (Some (length (conns s))) None) /\
  opens (Get open_err name dsn' (Get open_err name dsn s).1).1 = S (opens s) /\
  conns (Get open_err name dsn' (Get open_err name dsn s).1).1
    = conns s ++ [{| c_dsn := dsn; c_used := ["otel"] |}] /\
  (forall name', name' <> name ->
     dbs (Get open_err name dsn' (Get open_err name dsn s).1).1 !! name'
     = dbs s !! name').
Proof.
  intros Hmiss Hsfg Hopen. rewrite (Get_miss_ok _ _ _ _ Hmiss Hsfg Hopen).
  cbn [fst snd]. erewrite Get_hit; [|cbn [dbs]; apply lookup_insert_eq].
  cbn [fst snd opens conns dbs]. repeat split; try done.
  intros name' Hne. by rewrite lookup_insert_ne.
Qed.

Lemma run_reachable schedule s s' :
  reachable open_err s -> run open_err schedule s = Some s' -> reachable open_err s'.
Proof.
  revert s; induction schedule as [|t rest IH]; intros s Hr; simpl.
  - by intros [= <-].
  - destruct (step open_err t s) as [s1|] eqn:Hstep; [|done].
    apply IH. by eapply reach_step.
Qed.

Lemma launch_reachable n name dsn : reachable open_err (launch n name dsn).
Proof.
  induction n as [|n IH]; [apply reach_start|].
  replace (launch (S n) name dsn) with (spawn name dsn (launch n name dsn)).2.
  - by apply reach_spawn.
  - unfold spawn, launch; cbn [snd dbs sfg calls opens conns goroutines].
    by rewrite replicate_S_end.
Qed.

(** X19.  In every reachable state the invocations of [gorm.Open] so far
    and the goroutines about to invoke it add up to the calls that the
    single-flight group has started: [gorm.Open] is invoked once per
    flight, and only in a flight.  No more connections exist than
    invocations. *)
Theorem one_open_per_flight s :
  reachable open_err s ->
  opens s + sum_list (opening <$> goroutines s) = length (calls s) /\
  length (conns s) <= opens s.
Proof.
  induction 1 as [|s name dsn _ [IH1 IH2]|s t s' _ [IH1 IH2] Hstep].
  - done.
  - unfold spawn; cbn [snd goroutines opens calls conns]. split; [|done].
    rewrite fmap_app, sum_list_with_app. cbn. lia.
  - unfold step in Hstep.
    destruct (goroutines s !! t) as [g|] eqn:Hg; [|done].
    assert (Hkey : forall g' sh,
      goroutines sh = goroutines s ->
      sum_list (opening <$> goroutines (set_goroutine t g' sh)) + opening g
      = sum_list (opening <$> goroutines s) + opening g').
    { intros g' sh Heq. unfold set_goroutine; cbn [goroutines]. rewrite Heq.
      by apply sum_insert. }
    assert (Hog : opening g = match g_pc g with Opening _ => 1 | _ => 0 end)
      by reflexivity.
    destruct (g_pc g) as [| |c|c h|c v e|c|v|db e|] eqn:Hpc; try done;
      repeat match type of Hstep with
             | context [match ?x with _ => _ end] => destruct x
             end;
      try done; injection Hstep as <-;
      match goal with
      | |- context [set_goroutine t ?g' ?sh] =>
        pose proof (Hkey g' sh eq_refl) as Hk;
        set (og := opening g') in Hk; cbv in og; subst og
      end;
      rewrite Hog in Hk;
      cbn [opens calls conns set_goroutine] in *;
      rewrite ?length_app, ?length_insert; cbn [length] in *; lia.
Qed.

End MoreRegistry.

(** * The further properties on concrete inputs *)

Section FurtherInstances.
Import Vocabulary MyError World Plugin Registry Reach Props Calls Scenarios Cases.

Lemma run_or_stay_reachable open_err schedule s :
  reachable open_err s -> reachable open_err (run_or_stay open_err schedule s).
Proof.
  intros Hr. unfold run_or_stay.
  destruct (run open_err schedule s) as [s'|] eqn:Hrun; [|done].
  by eapply run_reachable.
Qed.

(** X5 on a query that takes a millisecond and a half. *)
Lemma before_then_after_witness :
  db_Statement db_query = Some select_user /\ Context select_user = Some 5 /\
  (w_now w0 <= a_little_later)%Z /\
  (a_little_later - w_now w0 <= Time.maxDuration)%Z /\
  lg_cost <$> w_log (@after semconv plugin_default (Some db_query)
                       (set_now a_little_later
                          (@before_hook semconv Query plugin_default (Some db_query) w0)))
  = [1500000%Z].
Proof.
  split; [reflexivity|]. split; [reflexivity|].
  split; [vm_compute; discriminate|]. split; [vm_compute; discriminate|].
  pose proof (@before_then_after semconv Query plugin_default db_query select_user 5
                w0 a_little_later eq_refl eq_refl
                ltac:(vm_compute; discriminate) ltac:(vm_compute; discriminate))
    as [_ Hlog].
  rewrite Hlog. vm_compute. reflexivity.
Defined.

(** X7 on a statement under whose keys another party stored strings. *)
Lemma after_ignores_wrong_types_witness :
  db_Statement db_query = Some select_user /\ Context select_user = Some 5 /\
  (forall t, InstanceGet select_user "start_time" w_foreign <> Some (VTime t)) /\
  (forall sp, InstanceGet select_user "span" w_foreign <> Some (VSpan sp)) /\
  w_spans (@after semconv plugin_default (Some db_query) w_foreign) = w_spans w_foreign.
Proof.
  assert (Ht : forall t, InstanceGet select_user "start_time" w_foreign <> Some (VTime t))
    by (intros t; vm_compute; discriminate).
  assert (Hsp : forall sp, InstanceGet select_user "span" w_foreign <> Some (VSpan sp))
    by (intros sp; vm_compute; discriminate).
  repeat (split; [done|]).
  by rewrite (@after_ignores_wrong_types semconv plugin_default db_query select_user 5
                w_foreign eq_refl eq_refl Ht Hsp).
Defined.

(** X8 on a query. *)
Lemma second_before_leaks_first_span_witness :
  db_Statement db_query = Some select_user /\ Context select_user = Some 5 /\
  sp_ended <$> w_spans (@after semconv plugin_default (Some db_query)
                 (@before_hook semconv Query plugin_default (Some db_query)
                    (@before_hook semconv Query plugin_default (Some db_query) w0)))
  = [false; true].
Proof.
  split; [reflexivity|]. split; [reflexivity|].
  apply (@second_before_leaks_first_span semconv Query plugin_default db_query
           select_user 5 w0 eq_refl eq_refl).
Defined.


(** X11 on an empty registry. *)
Lemma Get_then_Get_witness :
  dbs (launch 0 "" "") !! "main" = None /\ sfg (launch 0 "" "") !! "main" = None /\
  open_ok (opens (launch 0 "" "")) "dsn" = None /\
  (Get open_ok "main" "other dsn" (Get open_ok "main" "dsn" (launch 0 "" "")).1).2
  = Some (Returned (Some 0) None).
Proof.
  repeat (split; [reflexivity|]).
  apply (Get_then_Get open_ok "main" "dsn" "other dsn" (launch 0 "" "")); reflexivity.
Defined.

(** X12 on the second goroutine of [late_schedule]. *)
Lemma Get_never_returns_error_witness :
  reachable open_ok s_late /\
  (g_pc <$> goroutines s_late !! 1) = Some (Returned (Some 1) None) /\
  installed s_late 1.
Proof.
  assert (Hr : reachable open_ok s_late)
    by (apply run_or_stay_reachable, launch_reachable).
  split; [exact Hr|]. split; [vm_compute; reflexivity|].
  destruct (goroutines s_late !! 1) as [g|] eqn:Hg; [|vm_compute in Hg; discriminate].
  assert (Hpc : g_pc g = Returned (Some 1) None)
    by (vm_compute in Hg; injection Hg as <-; reflexivity).
  destruct (Get_never_returns_error open_ok s_late 1 g (Some 1) None Hr Hg Hpc)
    as (_ & h & [= <-] & Hi).
  exact Hi.
Defined.


(** X14 on a state where the first goroutine leads call 0. *)
Lemma one_leader_per_name_witness :
  reachable open_ok s_leading /\
  (leads <$> goroutines s_leading !! 0) = Some (Some 0) /\
  (leads <$> goroutines s_leading !! 1) = Some None /\
  0 = 0.
Proof.
  assert (Hr : reachable open_ok s_leading)
    by (apply run_or_stay_reachable, launch_reachable).
  split; [exact Hr|]. split; [vm_compute; reflexivity|]. split; [vm_compute; reflexivity|].
  destruct (goroutines s_leading !! 0) as [g|] eqn:Hg; [|vm_compute in Hg; discriminate].
  assert (Hl : leads g = Some 0)
    by (vm_compute in Hg; injection Hg as <-; reflexivity).
  exact (one_leader_per_name open_ok s_leading 0 0 g g 0 0 Hr Hg Hg Hl Hl eq_refl).
Defined.

(** X15 on a state where the second goroutine waits for the first. *)
Lemma no_deadlock_witness :
  reachable open_ok s_waiting /\
  (g_pc <$> goroutines s_waiting !! 1) = Some (Wait 0) /\
  (is_Some (step open_ok 1 s_waiting) \/
   exists c t', (g_pc <$> goroutines s_waiting !! 1) = Some (Wait c) /\
                t' <> 1 /\ is_Some (step open_ok t' s_waiting)).
Proof.
  assert (Hr : reachable open_ok s_waiting)
    by (apply run_or_stay_reachable, launch_reachable).
  split; [exact Hr|]. split; [vm_compute; reflexivity|].
  destruct (goroutines s_waiting !! 1) as [g|] eqn:Hg; [|vm_compute in Hg; discriminate].
  assert (Hf : finished g = false)
    by (vm_compute in Hg; injection Hg as <-; reflexivity).
  destruct (no_deadlock open_ok s_waiting 1 g Hr Hg Hf) as [Hs|(c & t' & Hpc & Hne & Hs)].
  - by left.
  - right. exists c, t'. simpl. by rewrite Hpc.
Defined.

(** X16 on a state where the call that the second goroutine waits for
    has ended. *)
Lemma waiter_gets_result_of_its_call_witness :
  reachable open_ok s_released /\
  (g_pc <$> goroutines s_released !! 1) = Some (Wait 0) /\
  (done <$> calls s_released !! 0) = Some true /\
  (fun s' => outcome 1 s') <$> run open_ok [1; 1] s_released
  = Some (Some (Returned (Some 0) None)).
Proof.
  assert (Hr : reachable open_ok s_released)
    by (apply run_or_stay_reachable, launch_reachable).
  split; [exact Hr|]. split; [vm_compute; reflexivity|]. split; [vm_compute; reflexivity|].
  destruct (goroutines s_released !! 1) as [g|] eqn:Hg; [|vm_compute in Hg; discriminate].
  destruct (calls s_released !! 0) as [cl|] eqn:Hcl; [|vm_compute in Hcl; discriminate].
  assert (Hpc : g_pc g = Wait 0)
    by (vm_compute in Hg; injection Hg as <-; reflexivity).
  assert (Hcl' : cl = {| val := Some 0; err := None; done := true |})
    by (vm_compute in Hcl; injection Hcl as <-; reflexivity).
  rewrite (waiter_gets_result_of_its_call open_ok s_released 1 g 0 cl Hr Hg Hpc Hcl
             ltac:(by rewrite Hcl')).
  by rewrite Hcl'.
Defined.


(** X18 on the two steps that follow the end of the first call. *)
Lemma cache_never_evicts_witness :
  run open_ok [1; 1] s_released = Some (run_or_stay open_ok [1; 1] s_released) /\
  dom (dbs s_released) ⊆ dom (dbs (run_or_stay open_ok [1; 1] s_released)).
Proof.
  assert (Hrun : run open_ok [1; 1] s_released
                 = Some (run_or_stay open_ok [1; 1] s_released))
    by (vm_compute; reflexivity).
  split; [exact Hrun|].
  exact (cache_never_evicts open_ok [1; 1] _ _ Hrun).
Defined.

(** X19 on the state that [late_schedule] ends in: two flights, two
    invocations. *)
Lemma one_open_per_flight_witness :
  reachable open_ok s_late /\ opens s_late = 2 /\ length (calls s_late) = 2 /\
  opens s_late + sum_list (opening <$> goroutines s_late) = length (calls s_late).
Proof.
  assert (Hr : reachable open_ok s_late)
    by (apply run_or_stay_reachable, launch_reachable).
  split; [exact Hr|]. split; [vm_compute; reflexivity|]. split; [vm_compute; reflexivity|].
  exact (proj1 (one_open_per_flight open_ok s_late Hr)).
Defined.

End FurtherInstances.
